(** * The application shell of the Korean grammar museum (src/App.tsx)

    The shell owns four pieces of React state (the current screen, the
    selected level, the saved grammar points and the study statistics),
    mirrors two of them into [localStorage] as JSON text, and runs a
    one-second study-time ticker while the rooms screen is shown.

    Conventions of the embedding:
    - a JavaScript [number] is a [Z]: the shell only ever adds integer
      counters, on which IEEE doubles agree with [Z] below 2^53;
    - a JavaScript string is the list of its UTF-16 code units;
    - [JSON.stringify] and [JSON.parse] are platform functions; they are
      written out here ([JSON.stringify], [JSON.parse]) for the values the
      shell stores, so that what is read back from storage is computed
      and not assumed; [JSON.parse] tells the texts that are JSON from
      those that are not for every text, and gives the value read unless
      a number in the text is not an integer;
    - [types/grammar.ts] is not part of the sources: [GrammarLevel] and
      [GrammarPoint] are parameters ([GrammarTypes]). *)

From Stdlib Require Import ZArith NArith Lia List Ascii String.
From Stdlib Require Import DecimalFacts DecimalPos DecimalN DecimalZ.
From stdpp Require Import gmap strings list.

Local Open Scope N_scope.

(** ** JavaScript strings *)

(** A string is a sequence of 16-bit code units. *)
Abbreviation jstring := (list N).

(** The code units of an ASCII literal. *)
Definition js (s : string) : jstring :=
  List.map N_of_ascii (list_ascii_of_string s).

Definition ch (a : ascii) : N := N_of_ascii a.

Definition jstring_eqb (a b : jstring) : bool := bool_decide (a = b).

Module JSON.

(** ** JSON values

    Numbers are the integers (see the conventions above): [stringify]
    writes them in decimal.  [parse] reads every number literal of the
    JSON grammar, fraction and exponent included; a literal whose value
    is an integer gives that integer, and a text with a literal whose value
    is not one is JSON for which this development has no value (see
    [parsed]).  An object is the list of its properties in enumeration
    order. *)
#[local] Unset Elimination Schemes.
Inductive json : Type :=
| JNull
| JBool (b : bool)
| JNumber (n : Z)
| JString (s : jstring)
| JArray (xs : list json)
| JObject (ms : list (jstring * json)).
#[local] Set Elimination Schemes.

(** Induction that reaches the values inside arrays and objects. *)
Definition json_ind (P : json -> Prop)
    (HNull : P JNull) (HBool : forall b, P (JBool b))
    (HNumber : forall n, P (JNumber n)) (HString : forall s, P (JString s))
    (HArray : forall xs, Forall P xs -> P (JArray xs))
    (HObject : forall ms, Forall (fun m => P (snd m)) ms -> P (JObject ms)) :
  forall v, P v :=
  fix go (v : json) : P v :=
    match v with
    | JNull => HNull
    | JBool b => HBool b
    | JNumber n => HNumber n
    | JString s => HString s
    | JArray xs =>
        HArray xs
          ((fix all (l : list json) : Forall P l :=
              match l with
              | [] => List.Forall_nil P
              | x :: l' => List.Forall_cons P x l' (go x) (all l')
              end) xs)
    | JObject ms =>
        HObject ms
          ((fix all (l : list (jstring * json)) : Forall (fun m => P (snd m)) l :=
              match l with
              | [] => List.Forall_nil _
              | m :: l' => List.Forall_cons _ m l' (go (snd m)) (all l')
              end) ms)
    end.

(** *** Code units with a role in the grammar *)
Definition dquote : N := 34.
Definition backslash : N := 92.
Definition slash : N := 47.
Definition comma : N := 44.
Definition colon : N := 58.
Definition minus : N := 45.
Definition lbracket : N := 91.
Definition rbracket : N := 93.
Definition lbrace : N := 123.
Definition rbrace : N := 125.

Definition is_ws (c : N) : bool :=
  (c =? 32) || (c =? 9) || (c =? 10) || (c =? 13).

Definition is_high_surrogate (c : N) : bool := (55296 <=? c) && (c <=? 56319).
Definition is_low_surrogate (c : N) : bool := (56320 <=? c) && (c <=? 57343).

(** *** JSON.stringify *)

Definition hex_digit (n : N) : N := if n <? 10 then 48 + n else 87 + n.

(** UnicodeEscape: a backslash, [u] and four lower-case hexadecimal digits. *)
Definition unicode_escape (c : N) : jstring :=
  [backslash; ch "u"; hex_digit ((c / 4096) mod 16); hex_digit ((c / 256) mod 16);
   hex_digit ((c / 16) mod 16); hex_digit (c mod 16)].

(** The code units that QuoteJSONString writes for one code unit that is
    not half of a surrogate pair. *)
Definition quote_unit (c : N) : jstring :=
  if c =? 8 then [backslash; ch "b"]
  else if c =? 9 then [backslash; ch "t"]
  else if c =? 10 then [backslash; ch "n"]
  else if c =? 12 then [backslash; ch "f"]
  else if c =? 13 then [backslash; ch "r"]
  else if c =? dquote then [backslash; dquote]
  else if c =? backslash then [backslash; backslash]
  else if (c <? 32) || is_high_surrogate c || is_low_surrogate c then unicode_escape c
  else [c].

(** QuoteJSONString without the enclosing quotes: a high surrogate followed
    by a low one is a code point of its own and is copied, a lone surrogate
    is escaped. *)
Fixpoint quote_units (s : jstring) : jstring :=
  match s with
  | [] => []
  | c :: s' =>
      if is_high_surrogate c then
        match s' with
        | d :: s'' =>
            if is_low_surrogate d then c :: d :: quote_units s''
            else unicode_escape c ++ quote_units s'
        | [] => unicode_escape c
        end
      else quote_unit c ++ quote_units s'
  end.

Definition quote (s : jstring) : jstring := dquote :: quote_units s ++ [dquote].

Fixpoint digits (d : Decimal.uint) : jstring :=
  match d with
  | Decimal.Nil => []
  | Decimal.D0 d => 48 :: digits d
  | Decimal.D1 d => 49 :: digits d
  | Decimal.D2 d => 50 :: digits d
  | Decimal.D3 d => 51 :: digits d
  | Decimal.D4 d => 52 :: digits d
  | Decimal.D5 d => 53 :: digits d
  | Decimal.D6 d => 54 :: digits d
  | Decimal.D7 d => 55 :: digits d
  | Decimal.D8 d => 56 :: digits d
  | Decimal.D9 d => 57 :: digits d
  end.

Definition stringify_number (n : Z) : jstring :=
  match Z.to_int n with
  | Decimal.Pos d => digits d
  | Decimal.Neg d => minus :: digits d
  end.

(** [Array.prototype.join] on code-unit strings. *)
Fixpoint join (sep : jstring) (parts : list jstring) : jstring :=
  match parts with
  | [] => []
  | [p] => p
  | p :: ps => p ++ sep ++ join sep ps
  end.

(** SerializeJSONProperty with no replacer and no indentation. *)
Fixpoint stringify (v : json) : jstring :=
  match v with
  | JNull => js "null"
  | JBool true => js "true"
  | JBool false => js "false"
  | JNumber n => stringify_number n
  | JString s => quote s
  | JArray xs => lbracket :: join [comma] (List.map stringify xs) ++ [rbracket]
  | JObject ms =>
      lbrace ::
        join [comma] (List.map (fun m => quote (fst m) ++ colon :: stringify (snd m)) ms)
        ++ [rbrace]
  end.

(** *** JSON.parse *)

Fixpoint skip_ws (s : jstring) : jstring :=
  match s with
  | c :: s' => if is_ws c then skip_ws s' else s
  | [] => []
  end.

Definition hex_value (c : N) : option N :=
  if (48 <=? c) && (c <=? 57) then Some (c - 48)
  else if (97 <=? c) && (c <=? 102) then Some (c - 87)
  else if (65 <=? c) && (c <=? 70) then Some (c - 55)
  else None.

Definition hex4 (a b c d : N) : option N :=
  match hex_value a, hex_value b, hex_value c, hex_value d with
  | Some a, Some b, Some c, Some d => Some (4096 * a + 256 * b + 16 * c + d)
  | _, _, _, _ => None
  end.

(** The code unit of a one-letter escape. *)
Definition unescape (e : N) : option N :=
  if e =? dquote then Some dquote
  else if e =? backslash then Some backslash
  else if e =? slash then Some slash
  else if e =? ch "b" then Some 8
  else if e =? ch "f" then Some 12
  else if e =? ch "n" then Some 10
  else if e =? ch "r" then Some 13
  else if e =? ch "t" then Some 9
  else None.

Definition prepend (c : N) (r : option (jstring * jstring)) : option (jstring * jstring) :=
  match r with
  | Some (s, rest) => Some (c :: s, rest)
  | None => None
  end.

(** The characters of a string literal up to its closing quote; the input
    starts after the opening quote. *)
Fixpoint parse_chars (s : jstring) : option (jstring * jstring) :=
  match s with
  | [] => None
  | c :: s1 =>
      if c =? dquote then Some ([], s1)
      else if c =? backslash then
        match s1 with
        | [] => None
        | e :: s2 =>
            if e =? ch "u" then
              match s2 with
              | h1 :: h2 :: h3 :: h4 :: s3 =>
                  match hex4 h1 h2 h3 h4 with
                  | Some u => prepend u (parse_chars s3)
                  | None => None
                  end
              | _ => None
              end
            else
              match unescape e with
              | Some u => prepend u (parse_chars s2)
              | None => None
              end
        end
      else if c <? 32 then None
      else prepend c (parse_chars s1)
  end.

Definition digit_of (c : N) : option (Decimal.uint -> Decimal.uint) :=
  if c =? 48 then Some Decimal.D0 else if c =? 49 then Some Decimal.D1
  else if c =? 50 then Some Decimal.D2 else if c =? 51 then Some Decimal.D3
  else if c =? 52 then Some Decimal.D4 else if c =? 53 then Some Decimal.D5
  else if c =? 54 then Some Decimal.D6 else if c =? 55 then Some Decimal.D7
  else if c =? 56 then Some Decimal.D8 else if c =? 57 then Some Decimal.D9
  else None.

(** The longest prefix of decimal digits. *)
Fixpoint read_digits (s : jstring) : Decimal.uint * jstring :=
  match s with
  | [] => (Decimal.Nil, [])
  | c :: s' =>
      match digit_of c with
      | Some k => let '(d, r) := read_digits s' in (k d, r)
      | None => (Decimal.Nil, s)
      end
  end.

(** The digit strings of the grammar's integer part: 0, or digits that
    do not start with 0. *)
Definition int_digits (d : Decimal.uint) : bool :=
  match d with
  | Decimal.Nil => false
  | Decimal.D0 Decimal.Nil => true
  | Decimal.D0 _ => false
  | _ => true
  end.

(** The fraction part of a number literal: a point and at least one
    digit.  [Some (Nil, s)]: there is no fraction; [None]: a point that no
    digit follows. *)
Definition read_fraction (s : jstring) : option (Decimal.uint * jstring) :=
  match s with
  | c :: s1 =>
      if c =? ch "." then
        match read_digits s1 with
        | (Decimal.Nil, _) => None
        | (d, r) => Some (d, r)
        end
      else Some (Decimal.Nil, s)
  | [] => Some (Decimal.Nil, [])
  end.

(** The exponent part: [e] or [E], an optional sign and at least one
    digit.  [Some (0, s)]: there is no exponent; [None]: an [e] that no
    digit follows. *)
Definition read_exponent (s : jstring) : option (Z * jstring) :=
  match s with
  | c :: s1 =>
      if (c =? ch "e") || (c =? ch "E") then
        let '(neg, s2) :=
          match s1 with
          | c' :: s' =>
              if c' =? minus then (true, s')
              else if c' =? ch "+" then (false, s')
              else (false, s1)
          | [] => (false, s1)
          end in
        match read_digits s2 with
        | (Decimal.Nil, _) => None
        | (d, r) => Some (if neg then (- Z.of_uint d)%Z else Z.of_uint d, r)
        end
      else Some (0%Z, s)
  | [] => Some (0%Z, [])
  end.

(** The value of a number literal, when it is an integer: the digits of
    the integer part and of the fraction read as one number, times ten to
    the exponent less the length of the fraction.  It is the exact value
    (see the conventions on numbers); minus zero is zero, which is how
    [stringify] writes it. *)
Definition number_value (neg : bool) (int frac : Decimal.uint) (exp : Z) : option Z :=
  let m := Z.of_uint (Decimal.app int frac) in
  let k := (exp - Z.of_nat (Decimal.nb_digits frac))%Z in
  let v :=
    if (0 <=? k)%Z then Some (m * 10 ^ k)%Z
    else if (m mod 10 ^ (- k) =? 0)%Z then Some (m / 10 ^ (- k))%Z
    else None in
  if neg then Z.opp <$> v else v.

(** A number literal: an optional minus, the integer part, an optional
    fraction, an optional exponent.  The value read is [None] when the
    literal does not denote an integer. *)
Definition parse_number (s : jstring) : option (option json * jstring) :=
  let '(neg, s1) :=
    match s with
    | c :: s' => if c =? minus then (true, s') else (false, s)
    | [] => (false, s)
    end in
  let '(d, r) := read_digits s1 in
  if int_digits d then
    match read_fraction r with
    | Some (f, r1) =>
        match read_exponent r1 with
        | Some (e, r2) => Some (JNumber <$> number_value neg d f e, r2)
        | None => None
        end
    | None => None
    end
  else None.

(** Reads a keyword such as [null]. *)
Fixpoint expect (word s : jstring) : option jstring :=
  match word with
  | [] => Some s
  | w :: word' =>
      match s with
      | c :: s' => if c =? w then expect word' s' else None
      | [] => None
      end
  end.

(** CreateDataProperty on a property list: an existing key keeps its
    place and takes the new value, a new key goes last.  (Array-index
    keys, which ECMAScript enumerates first, are not reordered.) *)
Fixpoint obj_set (k : jstring) (v : json) (ms : list (jstring * json)) : list (jstring * json) :=
  match ms with
  | [] => [(k, v)]
  | (k', v') :: ms' =>
      if jstring_eqb k' k then (k', v) :: ms' else (k', v') :: obj_set k v ms'
  end.

(** The values read so far, with one more; [None] once a number that is
    not an integer has been read. *)
Definition push (acc : option (list json)) (v : option json) : option (list json) :=
  match acc, v with
  | Some xs, Some x => Some (xs ++ [x])
  | _, _ => None
  end.

Definition put (k : jstring) (v : option json) (acc : option (list (jstring * json)))
  : option (list (jstring * json)) :=
  match acc, v with
  | Some ms, Some x => Some (obj_set k x ms)
  | _, _ => None
  end.

(** The recursive-descent reader.  A result [Some (v, rest)] says that a
    JSON value was read and [rest] follows it; [v] is the value, or [None]
    when a number in it is not an integer.  [None] is a syntax error.
    [fuel] bounds the nesting of calls; [parse] below starts it with more
    than the text can use. *)
Fixpoint parse_value (fuel : nat) (s : jstring) {struct fuel}
  : option (option json * jstring) :=
  match fuel with
  | O => None
  | S fuel =>
      match skip_ws s with
      | [] => None
      | c :: r =>
          if c =? dquote then
            match parse_chars r with
            | Some (str, r') => Some (Some (JString str), r')
            | None => None
            end
          else if c =? lbracket then
            match skip_ws r with
            | c' :: r' =>
                if c' =? rbracket then Some (Some (JArray []), r')
                else parse_elements fuel (Some []) r
            | [] => None
            end
          else if c =? lbrace then
            match skip_ws r with
            | c' :: r' =>
                if c' =? rbrace then Some (Some (JObject []), r')
                else parse_members fuel (Some []) r
            | [] => None
            end
          else if c =? ch "n" then
            match expect (js "ull") r with Some r' => Some (Some JNull, r') | None => None end
          else if c =? ch "t" then
            match expect (js "rue") r with
            | Some r' => Some (Some (JBool true), r')
            | None => None
            end
          else if c =? ch "f" then
            match expect (js "alse") r with
            | Some r' => Some (Some (JBool false), r')
            | None => None
            end
          else parse_number (c :: r)
      end
  end
with parse_elements (fuel : nat) (acc : option (list json)) (s : jstring) {struct fuel}
  : option (option json * jstring) :=
  match fuel with
  | O => None
  | S fuel =>
      match parse_value fuel s with
      | Some (v, r) =>
          match skip_ws r with
          | c :: r' =>
              if c =? comma then parse_elements fuel (push acc v) r'
              else if c =? rbracket then Some (JArray <$> push acc v, r')
              else None
          | [] => None
          end
      | None => None
      end
  end
with parse_members (fuel : nat) (acc : option (list (jstring * json))) (s : jstring)
    {struct fuel} : option (option json * jstring) :=
  match fuel with
  | O => None
  | S fuel =>
      match skip_ws s with
      | q :: s1 =>
          if q =? dquote then
            match parse_chars s1 with
            | Some (k, s2) =>
                match skip_ws s2 with
                | c :: s3 =>
                    if c =? colon then
                      match parse_value fuel s3 with
                      | Some (v, r) =>
                          match skip_ws r with
                          | c' :: r' =>
                              if c' =? comma then parse_members fuel (put k v acc) r'
                              else if c' =? rbrace then Some (JObject <$> put k v acc, r')
                              else None
                          | [] => None
                          end
                      | None => None
                      end
                    else None
                | [] => None
                end
            | None => None
            end
          else None
      | [] => None
      end
  end.

(** A bound on the calls the reader makes on the text of a value. *)
Fixpoint size (v : json) : nat :=
  match v with
  | JArray xs => S (list_sum (List.map (fun x => S (size x)) xs))
  | JObject ms => S (list_sum (List.map (fun m => S (size (snd m))) ms))
  | _ => 1
  end.

(** The values that exist in JavaScript: an object has each of its
    property names once. *)
#[local] Unset Elimination Schemes.
Inductive distinct_keys : json -> Prop :=
| distinct_null : distinct_keys JNull
| distinct_bool b : distinct_keys (JBool b)
| distinct_number n : distinct_keys (JNumber n)
| distinct_string s : distinct_keys (JString s)
| distinct_array xs : Forall distinct_keys xs -> distinct_keys (JArray xs)
| distinct_object ms :
    NoDup (List.map fst ms) -> Forall (fun m => distinct_keys (snd m)) ms ->
    distinct_keys (JObject ms).
#[local] Set Elimination Schemes.

(** What [JSON.parse] does with a text. *)
Inductive parsed : Type :=
| Parsed (v : json)   (* it returns [v] *)
| Unrepresented       (* the text is JSON and it returns a value, but a
                         number in the text is not an integer: this
                         development has no value for it *)
| Invalid.            (* the text is not JSON: it throws a SyntaxError *)

(** [JSON.parse text]. *)
Definition parse (text : jstring) : parsed :=
  match parse_value (S (length text)) text with
  | Some (v, r) =>
      match skip_ws r with
      | [] => match v with Some v => Parsed v | None => Unrepresented end
      | _ :: _ => Invalid
      end
  | None => Invalid
  end.

(** *** Notions used in the proofs about the reader *)

(** What follows a value inside a text that [stringify] wrote. *)
Definition delimited (rest : jstring) : Prop :=
  match rest with
  | [] => True
  | c :: _ => c = comma \/ c = rbracket \/ c = rbrace
  end.

(** The text of one property of an object. *)
Definition member_text (m : jstring * json) : jstring :=
  quote (fst m) ++ colon :: stringify (snd m).

(** Reading the text of [v] gives [v] and stops after it, whatever
    follows, given fuel for [size v] calls. *)
Definition reads_back (v : json) : Prop :=
  forall fuel rest, (size v <= fuel)%nat -> delimited rest ->
    parse_value fuel (stringify v ++ rest) = Some (Some v, rest).

(** A successful run of a reader with fuel [f] consumes input, and any
    fuel that covers the consumed input gives the same result. *)
Definition value_settled (f : nat) : Prop :=
  forall s v r, parse_value f s = Some (v, r) ->
    (length r < length s)%nat /\
    forall f', (length s - length r <= f')%nat -> parse_value f' s = Some (v, r).

Definition elements_settled (f : nat) : Prop :=
  forall acc s v r, parse_elements f acc s = Some (v, r) ->
    (length r < length s)%nat /\
    forall f', (length s - length r <= f')%nat -> parse_elements f' acc s = Some (v, r).

Definition members_settled (f : nat) : Prop :=
  forall acc s v r, parse_members f acc s = Some (v, r) ->
    (length r < length s)%nat /\
    forall f', (length s - length r <= f')%nat -> parse_members f' acc s = Some (v, r).

End JSON.

Import JSON.

(** ** Typed data and its JSON form

    [to_json] is the JSON value of a piece of typed state, the value that
    [JSON.stringify] serialises.  [of_json] recognises the JSON values of
    that exact form; [JSON.parse] itself returns [any], and a value of
    another form is stored by the shell unchecked (see [IllTyped]). *)
Class JSONData (A : Type) := {
  to_json : A -> json;
  of_json : json -> option A
}.

Fixpoint of_json_all {A} `{JSONData A} (xs : list json) : option (list A) :=
  match xs with
  | [] => Some []
  | x :: xs' =>
      match of_json x, of_json_all xs' with
      | Some a, Some l => Some (a :: l)
      | _, _ => None
      end
  end.

#[export] Instance number_JSONData : JSONData Z := {|
  to_json := JNumber;
  of_json j := match j with JNumber n => Some n | _ => None end
|}.

#[export] Instance array_JSONData {A} `{JSONData A} : JSONData (list A) := {|
  to_json l := JArray (List.map to_json l);
  of_json j := match j with JArray xs => of_json_all xs | _ => None end
|}.

(** The laws a type's JSON form has when all its fields are plain data. *)
Class JSONLaws (A : Type) `{JSONData A} : Prop := {
  of_to_json : forall a : A, of_json (to_json a) = Some a;
  to_json_distinct : forall a : A, distinct_keys (to_json a)
}.

(** ** The state of the shell *)

Inductive ScreenType : Type :=
| welcome | entrance | rooms | notebook | progress | games.

#[export] Instance ScreenType_eq_dec : EqDecision ScreenType.
Proof. solve_decision. Defined.

Record QuizStats : Type := {
  correct : Z;
  total : Z;
  streak : Z;
  bestStreak : Z
}.

Record StudyStats : Type := {
  quizStats : QuizStats;
  studyTime : Z;
  grammarMastered : Z
}.

#[export] Instance QuizStats_JSONData : JSONData QuizStats := {|
  to_json q :=
    JObject [(js "correct", JNumber (correct q)); (js "total", JNumber (total q));
             (js "streak", JNumber (streak q)); (js "bestStreak", JNumber (bestStreak q))];
  of_json j :=
    match j with
    | JObject [(k1, JNumber c); (k2, JNumber t); (k3, JNumber s); (k4, JNumber b)] =>
        if jstring_eqb k1 (js "correct") && jstring_eqb k2 (js "total")
           && jstring_eqb k3 (js "streak") && jstring_eqb k4 (js "bestStreak")
        then Some {| correct := c; total := t; streak := s; bestStreak := b |}
        else None
    | _ => None
    end
|}.

#[export] Instance StudyStats_JSONData : JSONData StudyStats := {|
  to_json s :=
    JObject [(js "quizStats", to_json (quizStats s)); (js "studyTime", JNumber (studyTime s));
             (js "grammarMastered", JNumber (grammarMastered s))];
  of_json j :=
    match j with
    | JObject [(k1, q); (k2, JNumber t); (k3, JNumber g)] =>
        if jstring_eqb k1 (js "quizStats") && jstring_eqb k2 (js "studyTime")
           && jstring_eqb k3 (js "grammarMastered")
        then match of_json q with
             | Some q' => Some {| quizStats := q'; studyTime := t; grammarMastered := g |}
             | None => None
             end
        else None
    | _ => None
    end
|}.

(** [types/grammar.ts]: a level is an opaque value; a grammar point is
    opaque data with an [id], compared with [===], and a JSON form. *)
Class GrammarTypes : Type := {
  GrammarLevel : Type;
  GrammarPoint : Type;
  Id : Type;
  Id_eq_dec :: EqDecision Id;
  id : GrammarPoint -> Id;
  GrammarPoint_JSONData :: JSONData GrammarPoint
}.

(** Props of the StudyProgress leaf. *)
Module StudyProgress.
Record props : Type := {
  quizStats : QuizStats;
  studyTime : Z;
  grammarMastered : Z;
  totalGrammar : Z
}.
End StudyProgress.

Inductive exn : Type := SyntaxError.

(** How an effect that reads untyped data ends. *)
Inductive outcome (A : Type) : Type :=
| Done (a : A)      (* it ran to its end *)
| Threw (e : exn)   (* an exception left it; nothing catches it *)
| IllTyped.         (* [JSON.parse] returned a value that is not of the
                       state's type, or read a text with a number that is
                       not an integer; [setState] stores what it returned
                       all the same, and this development does not follow
                       the shell from there *)
Arguments Done {A} a.
Arguments Threw {A} e.
Arguments IllTyped {A}.

Definition savedKey : string := "korean-grammar-saved".
Definition statsKey : string := "korean-grammar-stats".

(** Truthiness of what [localStorage.getItem] returns: [null] and the
    empty string are falsy. *)
Definition truthy (item : option jstring) : option jstring :=
  match item with
  | Some (c :: s) => Some (c :: s)
  | Some [] | None => None
  end.

Section Shell.
Context `{GrammarTypes}.

Record AppState : Type := {
  currentScreen : ScreenType;
  selectedLevel : option GrammarLevel;
  savedGrammar : list GrammarPoint;
  studyStats : StudyStats
}.

(** What the component owns besides its state: the interval of the
    study-time effect, if one is armed, as its delay in milliseconds, and
    the browser's storage. *)
Record Shell : Type := {
  state : AppState;
  interval : option Z;
  localStorage : gmap string jstring
}.

Definition defaultStats : StudyStats :=
  {| quizStats := {| correct := 0; total := 0; streak := 0; bestStreak := 0 |};
     studyTime := 0; grammarMastered := 0 |}.

Definition initialState : AppState :=
  {| currentScreen := welcome; selectedLevel := None;
     savedGrammar := []; studyStats := defaultStats |}.

(** *** State updaters (the functions passed to the setters) *)

Definition tickUpdater (prev : StudyStats) : StudyStats :=
  {| quizStats := quizStats prev;
     studyTime := studyTime prev + 1;
     grammarMastered := grammarMastered prev |}.

Definition saveUpdater (grammar : GrammarPoint) (prev : list GrammarPoint) : list GrammarPoint :=
  match List.find (fun g => bool_decide (id g = id grammar)) prev with
  | None => prev ++ [grammar]
  | Some _ => prev
  end.

Definition quizUpdater (correct' total' : Z) (prev : StudyStats) : StudyStats :=
  {| quizStats :=
       {| correct := correct (quizStats prev) + correct';
          total := total (quizStats prev) + total';
          streak := if (correct' =? total')%Z
                    then streak (quizStats prev) + correct' else 0;
          bestStreak := Z.max (bestStreak (quizStats prev)) (streak (quizStats prev)) |};
     studyTime := studyTime prev;
     grammarMastered := grammarMastered prev |}%Z.

(** *** Handlers, as changes of the React state *)

Definition handleScreenChange (screen : ScreenType) (st : AppState) : AppState :=
  {| currentScreen := screen; selectedLevel := selectedLevel st;
     savedGrammar := savedGrammar st; studyStats := studyStats st |}.

Definition handleLevelSelect (level : GrammarLevel) (st : AppState) : AppState :=
  {| currentScreen := rooms; selectedLevel := Some level;
     savedGrammar := savedGrammar st; studyStats := studyStats st |}.

Definition handleSaveGrammar (grammar : GrammarPoint) (st : AppState) : AppState :=
  {| currentScreen := currentScreen st; selectedLevel := selectedLevel st;
     savedGrammar := saveUpdater grammar (savedGrammar st); studyStats := studyStats st |}.

Definition handleQuizComplete (correct total : Z) (st : AppState) : AppState :=
  {| currentScreen := currentScreen st; selectedLevel := selectedLevel st;
     savedGrammar := savedGrammar st;
     studyStats := quizUpdater correct total (studyStats st) |}.

Definition handleGameComplete (score totalQuestions : Z) (st : AppState) : AppState :=
  handleQuizComplete score totalQuestions st.

(** The callback of [setInterval]. *)
Definition intervalCallback (st : AppState) : AppState :=
  {| currentScreen := currentScreen st; selectedLevel := selectedLevel st;
     savedGrammar := savedGrammar st; studyStats := tickUpdater (studyStats st) |}.

Definition getTotalGrammarCount : Z :=
  fold_left (fun sum count => sum + count)%Z [2; 50; 1]%Z 0%Z.

Definition getAllGrammarPoints (st : AppState) : list GrammarPoint := savedGrammar st.

(** *** Rendering: the leaf that is mounted, with the data it receives *)

Inductive Leaf : Type :=
| WelcomeScreen
| MuseumEntrance
| GrammarRooms (level : GrammarLevel)
| PersonalNotebook (savedGrammar : list GrammarPoint)
| StudyProgress (p : StudyProgress.props)
| GrammarGame (grammarPoints : list GrammarPoint).

Definition render (st : AppState) : option Leaf :=
  match currentScreen st with
  | welcome => Some WelcomeScreen
  | entrance => Some MuseumEntrance
  | rooms =>
      match selectedLevel st with
      | Some level => Some (GrammarRooms level)
      | None => None
      end
  | notebook => Some (PersonalNotebook (savedGrammar st))
  | progress =>
      Some (StudyProgress
              {| StudyProgress.quizStats := quizStats (studyStats st);
                 StudyProgress.studyTime := studyTime (studyStats st);
                 StudyProgress.grammarMastered := Z.of_nat (length (savedGrammar st));
                 StudyProgress.totalGrammar := getTotalGrammarCount |})
  | games => Some (GrammarGame (getAllGrammarPoints st))
  end.

(** *** Effects *)

(** The two persistence effects. *)
Definition persistSaved (saved : list GrammarPoint) (ls : gmap string jstring)
  : gmap string jstring :=
  <[savedKey := stringify (to_json saved)]> ls.

Definition persistStats (stats : StudyStats) (ls : gmap string jstring)
  : gmap string jstring :=
  <[statsKey := stringify (to_json stats)]> ls.

(** The study-time effect: its cleanup clears the interval, its body arms
    one of 1000 ms when the screen is [rooms]. *)
Definition studyTimeEffect (screen : ScreenType) : option Z :=
  if decide (screen = rooms) then Some 1000%Z else None.

(** The load effect, first half: the saved grammar points.  The result is
    the argument of [setSavedGrammar], if it is called. *)
Definition loadSaved (ls : gmap string jstring) : outcome (option (list GrammarPoint)) :=
  match truthy (ls !! savedKey) with
  | Some saved =>
      match parse saved with
      | Invalid => Threw SyntaxError
      | Unrepresented => IllTyped
      | Parsed j =>
          match of_json j with
          | Some l => Done (Some l)
          | None => IllTyped
          end
      end
  | None => Done None
  end.

(** The load effect, second half: the statistics. *)
Definition loadStats (ls : gmap string jstring) : outcome (option StudyStats) :=
  match truthy (ls !! statsKey) with
  | Some stats =>
      match parse stats with
      | Invalid => Threw SyntaxError
      | Unrepresented => IllTyped
      | Parsed j =>
          match of_json j with
          | Some s => Done (Some s)
          | None => IllTyped
          end
      end
  | None => Done None
  end.

(** The two halves of the load effect in sequence: an exception ends
    the effect where it is thrown; short of that, an ill-typed value in
    either half leaves the typed model. *)
Definition both {A B} (first : outcome A) (second : outcome B) : outcome (A * B) :=
  match first with
  | Threw e => Threw e
  | Done a =>
      match second with
      | Done b => Done (a, b)
      | Threw e => Threw e
      | IllTyped => IllTyped
      end
  | IllTyped =>
      match second with
      | Threw e => Threw e
      | _ => IllTyped
      end
  end.

(** The load effect: the state once the queued updates are applied. *)
Definition loadEffect (ls : gmap string jstring) (st : AppState) : outcome AppState :=
  match both (loadSaved ls) (loadStats ls) with
  | Done (saved, stats) =>
      Done {| currentScreen := currentScreen st; selectedLevel := selectedLevel st;
              savedGrammar := default (savedGrammar st) saved;
              studyStats := default (studyStats st) stats |}
  | Threw e => Threw e
  | IllTyped => IllTyped
  end.

(** Mounting the component over a given storage: the first render shows
    [initialState]; the effects run in the order of the source (load,
    persist saved, persist stats, study time); the updates queued by the
    load effect cause a second render, after which the persistence effect
    of each piece of state that was replaced runs again. *)
Definition mount (ls : gmap string jstring) : outcome Shell :=
  match both (loadSaved ls) (loadStats ls) with
  | Done (saved, stats) =>
      let ls1 := persistStats (studyStats initialState)
                   (persistSaved (savedGrammar initialState) ls) in
      let ls2 := match saved with Some l => persistSaved l ls1 | None => ls1 end in
      let ls3 := match stats with Some s => persistStats s ls2 | None => ls2 end in
      Done {| state := {| currentScreen := welcome; selectedLevel := None;
                          savedGrammar := default [] saved;
                          studyStats := default defaultStats stats |};
              interval := studyTimeEffect welcome;
              localStorage := ls3 |}
  | Threw e => Threw e
  | IllTyped => IllTyped
  end.

(** *** What can happen to a mounted shell *)

Inductive event : Type :=
| ScreenChange (screen : ScreenType)
| LevelSelect (level : GrammarLevel)
| SaveGrammar (grammar : GrammarPoint)
| QuizComplete (correct total : Z)
| GameComplete (score totalQuestions : Z)
| IntervalFires.

(** The study-time effect depends on [currentScreen]: it is cleaned up
    and run again when the screen has changed. *)
Definition rearm (old new : ScreenType) (armed : option Z) : option Z :=
  if decide (old = new) then armed else studyTimeEffect new.

(** One event, with the effects of the render it causes.  [None]: the
    event cannot happen (no interval is armed).  The persistence effect
    of the saved grammar depends on [savedGrammar]: it runs when the
    setter got a new array, which is when the list grew; every update of
    the statistics builds a new object, so their effect always runs. *)
Definition fire (e : event) (w : Shell) : option Shell :=
  match e with
  | ScreenChange screen =>
      Some {| state := handleScreenChange screen (state w);
              interval := rearm (currentScreen (state w)) screen (interval w);
              localStorage := localStorage w |}
  | LevelSelect level =>
      Some {| state := handleLevelSelect level (state w);
              interval := rearm (currentScreen (state w)) rooms (interval w);
              localStorage := localStorage w |}
  | SaveGrammar grammar =>
      let st := handleSaveGrammar grammar (state w) in
      Some {| state := st;
              interval := interval w;
              localStorage :=
                if decide (length (savedGrammar st) = length (savedGrammar (state w)))
                then localStorage w
                else persistSaved (savedGrammar st) (localStorage w) |}
  | QuizComplete correct total =>
      let st := handleQuizComplete correct total (state w) in
      Some {| state := st; interval := interval w;
              localStorage := persistStats (studyStats st) (localStorage w) |}
  | GameComplete score totalQuestions =>
      let st := handleGameComplete score totalQuestions (state w) in
      Some {| state := st; interval := interval w;
              localStorage := persistStats (studyStats st) (localStorage w) |}
  | IntervalFires =>
      match interval w with
      | Some _ =>
          let st := intervalCallback (state w) in
          Some {| state := st; interval := interval w;
                  localStorage := persistStats (studyStats st) (localStorage w) |}
      | None => None
      end
  end.

Fixpoint run (es : list event) (w : Shell) : option Shell :=
  match es with
  | [] => Some w
  | e :: es' =>
      match fire e w with
      | Some w' => run es' w'
      | None => None
      end
  end.

(** A round that reports no more correct answers than questions. *)
Definition valid_round (e : event) : Prop :=
  match e with
  | QuizComplete correct total | GameComplete correct total =>
      (0 <= correct /\ correct <= total)%Z
  | _ => True
  end.

(** The ids of a list of grammar points. *)
Definition ids (saved : list GrammarPoint) : list Id := List.map id saved.

(** What a key of the storage can hold at startup: nothing that
    [getItem] returns as truthy, or a non-empty text that is not JSON. *)
Definition unset (ls : gmap string jstring) (key : string) : Prop :=
  ls !! key = None \/ ls !! key = Some [].

Definition malformed (ls : gmap string jstring) (key : string) : Prop :=
  exists text, ls !! key = Some text /\ text <> [] /\ parse text = Invalid.

(** The interval is armed exactly when the screen is [rooms]. *)
Definition interval_inv (w : Shell) : Prop :=
  interval w = studyTimeEffect (currentScreen (state w)).

(** The storage holds the JSON text of the saved grammar and of the
    statistics that the state holds. *)
Definition mirrored (w : Shell) : Prop :=
  localStorage w !! savedKey = Some (stringify (to_json (savedGrammar (state w)))) /\
  localStorage w !! statsKey = Some (stringify (to_json (studyStats (state w)))).

(** The shell mounted over an empty storage. *)
Definition freshShell : Shell :=
  {| state := initialState; interval := None;
     localStorage := persistStats defaultStats (persistSaved [] ∅) |}.

Definition reachable (w : Shell) : Prop := exists es, run es freshShell = Some w.

(** *** The callbacks the render hands out

    The events a rendered screen can raise: the callbacks that the render
    passes to the leaf it mounts, and the back buttons that the progress
    and games screens draw themselves.  [handleQuizComplete] is passed to
    no leaf; the interval fires from outside the tree.  A leaf is taken to
    call its callbacks only while it is the one mounted. *)
Definition offered (st : AppState) (e : event) : bool :=
  match e with
  | IntervalFires => true
  | QuizComplete _ _ => false
  | ScreenChange target =>
      match render st with
      | Some WelcomeScreen =>
          match target with entrance => true | _ => false end
      | Some MuseumEntrance =>
          match target with notebook | games | progress | welcome => true | _ => false end
      | Some (GrammarRooms _) =>
          match target with entrance | notebook => true | _ => false end
      | Some (PersonalNotebook _) | Some (StudyProgress _) | Some (GrammarGame _) =>
          match target with entrance => true | _ => false end
      | None => false
      end
  | LevelSelect _ =>
      match render st with Some MuseumEntrance => true | _ => false end
  | SaveGrammar _ =>
      match render st with Some (GrammarRooms _) => true | _ => false end
  | GameComplete _ _ =>
      match render st with Some (GrammarGame _) => true | _ => false end
  end.

(** A run in which every event is one the screen of the moment offers. *)
Fixpoint session (es : list event) (w : Shell) : option Shell :=
  match es with
  | [] => Some w
  | e :: es' =>
      if offered (state w) e then
        match fire e w with
        | Some w' => session es' w'
        | None => None
        end
      else None
  end.

(** *** Bookkeeping over a list of events *)

(** The round an event reports, if it reports one. *)
Definition round_of (e : event) : option (Z * Z) :=
  match e with
  | QuizComplete correct total | GameComplete correct total => Some (correct, total)
  | _ => None
  end.

Fixpoint rounds_correct (es : list event) : Z :=
  match es with
  | [] => 0
  | e :: es' =>
      match round_of e with
      | Some (c, _) => c + rounds_correct es'
      | None => rounds_correct es'
      end
  end%Z.

Fixpoint rounds_total (es : list event) : Z :=
  match es with
  | [] => 0
  | e :: es' =>
      match round_of e with
      | Some (_, t) => t + rounds_total es'
      | None => rounds_total es'
      end
  end%Z.

Fixpoint firings (es : list event) : Z :=
  match es with
  | [] => 0
  | IntervalFires :: es' => 1 + firings es'
  | _ :: es' => firings es'
  end%Z.

(** The screen and the level that a list of events leaves selected. *)
Definition screen_after (es : list event) (screen : ScreenType) : ScreenType :=
  foldl (fun s e =>
           match e with
           | ScreenChange target => target
           | LevelSelect _ => rooms
           | _ => s
           end) screen es.

Definition level_after (es : list event) (level : option GrammarLevel) : option GrammarLevel :=
  foldl (fun l e => match e with LevelSelect level' => Some level' | _ => l end) level es.

(** The grammar points that a list of events asks to save, in order. *)
Fixpoint saves (es : list event) : list GrammarPoint :=
  match es with
  | [] => []
  | SaveGrammar grammar :: es' => grammar :: saves es'
  | _ :: es' => saves es'
  end.

(** A sequence of perfect rounds, given by their numbers of questions. *)
Definition perfect_rounds (cs : list Z) (stats : StudyStats) : StudyStats :=
  foldl (fun s c => quizUpdater c c s) stats cs.

(** The saved grammar point with a given id, as [find] returns it. *)
Definition find_saved (i : Id) (saved : list GrammarPoint) : option GrammarPoint :=
  List.find (fun g => bool_decide (id g = i)) saved.

(** The ranges the counters keep under valid rounds. *)
Definition stats_bounds (s : StudyStats) : Prop :=
  (0 <= streak (quizStats s) /\ streak (quizStats s) <= correct (quizStats s) /\
   0 <= bestStreak (quizStats s) /\ bestStreak (quizStats s) <= correct (quizStats s) /\
   correct (quizStats s) <= total (quizStats s) /\ 0 <= studyTime s)%Z.

End Shell.

(** ** An instance of the grammar types, for examples

    Three levels, and grammar points with a string [id] and a text. *)
Module Example.

Inductive level : Type := beginner | intermediate | advanced.

Record point : Type := { point_id : jstring; korean : jstring }.

#[export] Instance point_JSONData : JSONData point := {|
  to_json p := JObject [(js "id", JString (point_id p)); (js "korean", JString (korean p))];
  of_json j :=
    match j with
    | JObject [(k1, JString i); (k2, JString k)] =>
        if jstring_eqb k1 (js "id") && jstring_eqb k2 (js "korean")
        then Some {| point_id := i; korean := k |}
        else None
    | _ => None
    end
|}.

#[export] Instance types : GrammarTypes := {|
  GrammarLevel := level;
  GrammarPoint := point;
  Id := jstring;
  id := point_id
|}.

(** Two polite endings, [ieyo] and [ayo], written in Hangul code units. *)
Definition ieyo : @GrammarPoint types :=
  {| point_id := js "g1"; korean := [51060; 50640; 50836] |}.
Definition ayo : @GrammarPoint types :=
  {| point_id := js "g2"; korean := [50500; 50836] |}.
Definition first_level : @GrammarLevel types := beginner.

End Example.

(** * Facts about the JSON text functions *)

Module JSONFacts.

(** ** String literals *)

Lemma hex_value_digit n : n < 16 -> hex_value (hex_digit n) = Some n.
Proof.
  intros Hn. unfold hex_value, hex_digit.
  destruct (N.ltb_spec n 10).
  - replace ((48 <=? 48 + n) && (48 + n <=? 57)) with true
      by (symmetry; apply andb_true_iff; split; apply N.leb_le; lia).
    f_equal. lia.
  - replace ((48 <=? 87 + n) && (87 + n <=? 57)) with false
      by (symmetry; apply andb_false_iff; right; apply N.leb_gt; lia).
    replace ((97 <=? 87 + n) && (87 + n <=? 102)) with true
      by (symmetry; apply andb_true_iff; split; apply N.leb_le; lia).
    f_equal. lia.
Qed.

Lemma hex4_escape c :
  c < 65536 ->
  hex4 (hex_digit ((c / 4096) mod 16)) (hex_digit ((c / 256) mod 16))
       (hex_digit ((c / 16) mod 16)) (hex_digit (c mod 16)) = Some c.
Proof.
  intros Hc. unfold hex4.
  rewrite !hex_value_digit by (apply N.mod_upper_bound; lia).
  f_equal.
  assert (c / 4096 < 16) by (apply N.Div0.div_lt_upper_bound; lia).
  rewrite (N.mod_small (c / 4096)) by done.
  pose proof (N.div_mod' c 16) as H0.
  pose proof (N.div_mod' (c / 16) 16) as H1.
  pose proof (N.div_mod' (c / 256) 16) as H2.
  replace (c / 16 / 16) with (c / 256) in H1 by (rewrite N.Div0.div_div; done).
  replace (c / 256 / 16) with (c / 4096) in H2 by (rewrite N.Div0.div_div; done).
  lia.
Qed.

Lemma parse_chars_unicode a b c d s :
  parse_chars (backslash :: ch "u" :: a :: b :: c :: d :: s) =
  match hex4 a b c d with
  | Some u => prepend u (parse_chars s)
  | None => None
  end.
Proof. reflexivity. Qed.

Lemma parse_chars_plain c s :
  c <> dquote -> c <> backslash -> 32 <= c ->
  parse_chars (c :: s) = prepend c (parse_chars s).
Proof.
  intros H1 H2 H3. simpl.
  destruct (N.eqb_spec c dquote); [done|].
  destruct (N.eqb_spec c backslash); [done|].
  destruct (N.ltb_spec c 32); [lia|done].
Qed.

Lemma parse_chars_escaped c s :
  c < 65536 ->
  parse_chars (unicode_escape c ++ s) = prepend c (parse_chars s).
Proof.
  intros Hc. unfold unicode_escape. cbn [app].
  rewrite parse_chars_unicode, hex4_escape; done.
Qed.

Lemma high_surrogate_range c : is_high_surrogate c = true -> 55296 <= c <= 56319.
Proof. unfold is_high_surrogate. rewrite andb_true_iff, !N.leb_le. done. Qed.

Lemma low_surrogate_range c : is_low_surrogate c = true -> 56320 <= c <= 57343.
Proof. unfold is_low_surrogate. rewrite andb_true_iff, !N.leb_le. done. Qed.

Lemma parse_chars_quote_unit c s :
  parse_chars (quote_unit c ++ s) = prepend c (parse_chars s).
Proof.
  unfold quote_unit.
  repeat match goal with
         | |- context [if ?x =? ?y then _ else _] =>
             destruct (N.eqb_spec x y) as [->|?]; [reflexivity|]
         end.
  destruct (N.ltb_spec c 32); cbn [orb].
  { apply parse_chars_escaped. lia. }
  destruct (is_high_surrogate c) eqn:Hh; cbn [orb].
  { apply parse_chars_escaped. apply high_surrogate_range in Hh. lia. }
  destruct (is_low_surrogate c) eqn:Hl.
  { apply parse_chars_escaped. apply low_surrogate_range in Hl. lia. }
  cbn [app]. by apply parse_chars_plain.
Qed.

Lemma parse_chars_quote_units_bounded n s rest :
  (length s <= n)%nat ->
  parse_chars (quote_units s ++ dquote :: rest) = Some (s, rest).
Proof.
  revert s. induction n as [|n IH]; intros [|c s] Hlen; simpl in Hlen; try lia.
  - reflexivity.
  - reflexivity.
  - cbn [quote_units].
    destruct (is_high_surrogate c) eqn:Hh.
    + pose proof (high_surrogate_range _ Hh).
      destruct s as [|d s].
      * rewrite parse_chars_escaped by lia. reflexivity.
      * destruct (is_low_surrogate d) eqn:Hl.
        -- pose proof (low_surrogate_range _ Hl).
           cbn [app].
           rewrite parse_chars_plain by (unfold dquote, backslash; lia).
           rewrite parse_chars_plain by (unfold dquote, backslash; lia).
           rewrite IH by (simpl in Hlen; lia). reflexivity.
        -- rewrite <- app_assoc, parse_chars_escaped by lia.
           rewrite IH by lia. reflexivity.
    + rewrite <- app_assoc, parse_chars_quote_unit.
      rewrite IH by lia. reflexivity.
Qed.

(** A quoted string reads back as itself. *)
Lemma parse_chars_quote_units s rest :
  parse_chars (quote_units s ++ dquote :: rest) = Some (s, rest).
Proof. by apply (parse_chars_quote_units_bounded (length s)). Qed.

(** ** Numbers *)

Lemma delimited_digit rest :
  delimited rest -> match rest with c :: _ => digit_of c = None | [] => True end.
Proof. destruct rest as [|c r]; [done|]. by intros [-> | [-> | ->]]. Qed.

Lemma delimited_fraction rest :
  delimited rest -> read_fraction rest = Some (Decimal.Nil, rest).
Proof. destruct rest as [|c r]; [done|]. by intros [-> | [-> | ->]]. Qed.

Lemma delimited_exponent rest :
  delimited rest -> read_exponent rest = Some (0%Z, rest).
Proof. destruct rest as [|c r]; [done|]. by intros [-> | [-> | ->]]. Qed.

(** The value of a literal with neither fraction nor exponent is the
    number its digits write. *)
Lemma number_value_int (neg : bool) d :
  number_value neg d Decimal.Nil 0 =
  Some (Z.of_int (if neg then Decimal.Neg d else Decimal.Pos d)).
Proof.
  unfold number_value. rewrite DecimalFacts.app_nil_r.
  cbn [Decimal.nb_digits Z.of_nat Z.sub Z.leb Z.compare Z.pow Z.pow_pos Pos.iter].
  rewrite Z.mul_1_r. by destruct neg.
Qed.

Lemma delimited_skip_ws rest : delimited rest -> skip_ws rest = rest.
Proof. destruct rest as [|c r]; [done|]. by intros [-> | [-> | ->]]. Qed.

Lemma read_digits_digits d rest :
  match rest with c :: _ => digit_of c = None | [] => True end ->
  read_digits (digits d ++ rest) = (d, rest).
Proof.
  intros Hrest.
  induction d as [|d IH|d IH|d IH|d IH|d IH|d IH|d IH|d IH|d IH|d IH];
    cbn [digits Datatypes.app read_digits];
    [|rewrite IH; reflexivity..].
  destruct rest as [|c r]; [done|]. cbn [read_digits]. by rewrite Hrest.
Qed.

Lemma digits_head d :
  d <> Decimal.Nil -> exists c s, digits d = c :: s /\ (c =? minus) = false.
Proof. destruct d; [done|..]; intros _; eexists _, _; split; reflexivity. Qed.

Lemma to_uint_normal p : Decimal.unorm (Pos.to_uint p) = Pos.to_uint p.
Proof.
  rewrite <- DecimalPos.Unsigned.to_of, DecimalPos.Unsigned.of_to. reflexivity.
Qed.

Lemma int_digits_to_uint p : int_digits (Pos.to_uint p) = true.
Proof.
  pose proof (Unsigned.to_uint_nonnil p) as Hnil.
  pose proof (Unsigned.to_uint_nonzero p) as Hzero.
  pose proof (to_uint_normal p) as Hnorm.
  destruct (Pos.to_uint p) as [|u|u|u|u|u|u|u|u|u|u]; try done.
  exfalso. unfold Decimal.unorm in Hnorm. cbn [Decimal.nzhead] in Hnorm.
  pose proof (nb_digits_nzhead u) as Hlen.
  destruct (Decimal.nzhead u); try (by inversion Hnorm; subst);
    rewrite Hnorm in Hlen; cbn [Decimal.nb_digits] in Hlen; lia.
Qed.

Lemma int_digits_nonnil d : int_digits d = true -> d <> Decimal.Nil.
Proof. by destruct d. Qed.

Lemma parse_number_digits (neg : bool) d rest :
  int_digits d = true -> delimited rest ->
  parse_number ((if neg then [minus] else []) ++ digits d ++ rest) =
  Some (Some (JNumber (Z.of_int (if neg then Decimal.Neg d else Decimal.Pos d))), rest).
Proof.
  intros Hd Hrest. unfold parse_number.
  assert (read_digits (digits d ++ rest) = (d, rest)) as Hread
    by by apply read_digits_digits, delimited_digit.
  destruct neg; cbn [Datatypes.app].
  - change (minus =? minus) with true. cbv iota.
    by rewrite Hread, Hd, delimited_fraction, delimited_exponent, number_value_int.
  - destruct (digits_head d) as (c & s & Hhead & Hc); [by apply int_digits_nonnil|].
    rewrite Hhead in *. cbn [Datatypes.app] in *.
    by rewrite Hc, Hread, Hd, delimited_fraction, delimited_exponent, number_value_int.
Qed.

Lemma parse_number_stringify n rest :
  delimited rest ->
  parse_number (stringify_number n ++ rest) = Some (Some (JNumber n), rest).
Proof.
  intros Hrest. unfold stringify_number.
  pose proof (DecimalZ.of_to n) as Hn.
  destruct n as [|p|p]; cbn [Z.to_int] in *.
  - exact (parse_number_digits false (Decimal.D0 Decimal.Nil) rest eq_refl Hrest).
  - pose proof (parse_number_digits false _ rest (int_digits_to_uint p) Hrest) as H.
    cbn [Datatypes.app] in H. by rewrite H, Hn.
  - pose proof (parse_number_digits true _ rest (int_digits_to_uint p) Hrest) as H.
    cbn [Datatypes.app] in H |- *. by rewrite H, Hn.
Qed.

(** ** Values *)

Lemma parse_value_string fuel r :
  parse_value (S fuel) (dquote :: r) =
  match parse_chars r with
  | Some (str, r') => Some (Some (JString str), r')
  | None => None
  end.
Proof. reflexivity. Qed.

Lemma parse_value_array fuel r :
  parse_value (S fuel) (lbracket :: r) =
  match skip_ws r with
  | c' :: r' =>
      if c' =? rbracket then Some (Some (JArray []), r') else parse_elements fuel (Some []) r
  | [] => None
  end.
Proof. reflexivity. Qed.

Lemma parse_value_object fuel r :
  parse_value (S fuel) (lbrace :: r) =
  match skip_ws r with
  | c' :: r' =>
      if c' =? rbrace then Some (Some (JObject []), r') else parse_members fuel (Some []) r
  | [] => None
  end.
Proof. reflexivity. Qed.

Lemma parse_value_number fuel c r :
  c = minus \/ 48 <= c <= 57 ->
  parse_value (S fuel) (c :: r) = parse_number (c :: r).
Proof.
  intros Hc. cbn [parse_value skip_ws].
  assert (is_ws c = false) as ->.
  { unfold is_ws. rewrite !orb_false_iff, !N.eqb_neq. unfold minus in Hc. lia. }
  repeat match goal with
         | |- context [if ?x =? ?y then _ else _] =>
             destruct (N.eqb_spec x y) as [->|?];
             [exfalso; revert Hc; unfold minus; clear; cbv; intros [?|[? ?]]; done|]
         end.
  reflexivity.
Qed.

Lemma parse_elements_step fuel acc s :
  parse_elements (S fuel) acc s =
  match parse_value fuel s with
  | Some (v, r) =>
      match skip_ws r with
      | c :: r' =>
          if c =? comma then parse_elements fuel (push acc v) r'
          else if c =? rbracket then Some (JArray <$> push acc v, r')
          else None
      | [] => None
      end
  | None => None
  end.
Proof. reflexivity. Qed.

Lemma parse_members_step fuel acc k r :
  parse_members (S fuel) acc (dquote :: quote_units k ++ dquote :: colon :: r) =
  match parse_value fuel r with
  | Some (v, r1) =>
      match skip_ws r1 with
      | c' :: r' =>
          if c' =? comma then parse_members fuel (put k v acc) r'
          else if c' =? rbrace then Some (JObject <$> put k v acc, r')
          else None
      | [] => None
      end
  | None => None
  end.
Proof.
  cbn [parse_members skip_ws]. change (is_ws dquote) with false. cbv iota.
  change (dquote =? dquote) with true. cbv iota.
  rewrite parse_chars_quote_units. reflexivity.
Qed.

Lemma digits_head_range d :
  d <> Decimal.Nil -> exists c s, digits d = c :: s /\ 48 <= c <= 57.
Proof. destruct d; [done|..]; intros _; eexists _, _; (split; [reflexivity|lia]). Qed.

Lemma stringify_number_head n :
  exists c s, stringify_number n = c :: s /\ (c = minus \/ 48 <= c <= 57).
Proof.
  unfold stringify_number. destruct n as [|p|p]; cbn [Z.to_int].
  - eexists _, _. split; [reflexivity|]. right. lia.
  - destruct (digits_head_range (Pos.to_uint p)) as (c & s & -> & Hc);
      [apply Unsigned.to_uint_nonnil|]. eauto.
  - eexists _, _. split; [reflexivity|]. by left.
Qed.

(** The first code unit of a value's text is neither white space nor a
    closing bracket. *)
Lemma stringify_head v :
  exists c s, stringify v = c :: s /\ is_ws c = false /\ (c =? rbracket) = false.
Proof.
  destruct v as [|[]|n|str|xs|ms]; try (eexists _, _; repeat split; reflexivity).
  destruct (stringify_number_head n) as (c & s & Heq & Hc).
  exists c, s. split; [done|]. unfold is_ws.
  rewrite !orb_false_iff, !N.eqb_neq. unfold minus, rbracket in *.
  lia.
Qed.

Lemma obj_set_fresh k v acc :
  k ∉ List.map fst acc -> obj_set k v acc = acc ++ [(k, v)].
Proof.
  induction acc as [|[k' v'] acc IH]; intros Hk; [done|].
  cbn [obj_set Datatypes.app]. unfold jstring_eqb.
  rewrite bool_decide_eq_false_2 by (intros ->; apply Hk; cbn; left).
  rewrite IH; [done|]. intros Hin. apply Hk. cbn. by right.
Qed.

Lemma parse_elements_join xs : forall acc fuel rest,
  xs <> [] -> Forall reads_back xs ->
  (list_sum (List.map (fun x => S (size x)) xs) <= fuel)%nat ->
  parse_elements fuel (Some acc) (join [comma] (List.map stringify xs) ++ rbracket :: rest)
  = Some (Some (JArray (acc ++ xs)), rest).
Proof.
  induction xs as [|x xs IH]; intros acc fuel rest Hne Hall Hfuel; [done|].
  apply Forall_cons in Hall as [Hx Hall].
  cbn [List.map list_sum fold_right] in Hfuel.
  destruct fuel as [|fuel]; [lia|].
  rewrite parse_elements_step.
  destruct xs as [|y ys].
  - cbn [List.map join].
    rewrite Hx by (done || cbn in *; lia). cbn [skip_ws].
    change (is_ws rbracket) with false. cbv iota.
    change (rbracket =? comma) with false. change (rbracket =? rbracket) with true.
    reflexivity.
  - change (join [comma] (List.map stringify (x :: y :: ys)))
      with (stringify x ++ [comma] ++ join [comma] (List.map stringify (y :: ys))).
    rewrite <- !app_assoc. cbn [Datatypes.app].
    rewrite Hx by (left || cbn in *; lia). cbn [skip_ws].
    change (is_ws comma) with false. cbv iota.
    change (comma =? comma) with true. cbv iota. cbn [push].
    rewrite IH by (done || cbn in *; lia).
    by rewrite <- app_assoc.
Qed.

Lemma parse_members_join ms : forall acc fuel rest,
  ms <> [] -> Forall (fun m => reads_back (snd m)) ms ->
  NoDup (List.map fst (acc ++ ms)) ->
  (list_sum (List.map (fun m => S (size (snd m))) ms) <= fuel)%nat ->
  parse_members fuel (Some acc) (join [comma] (List.map member_text ms) ++ rbrace :: rest)
  = Some (Some (JObject (acc ++ ms)), rest).
Proof.
  induction ms as [|[k v] ms IH]; intros acc fuel rest Hne Hall Hdup Hfuel; [done|].
  apply Forall_cons in Hall as [Hv Hall]. cbn [snd] in Hv.
  cbn [List.map list_sum fold_right snd] in Hfuel.
  destruct fuel as [|fuel]; [lia|].
  assert (obj_set k v acc = acc ++ [(k, v)]) as Hset.
  { apply obj_set_fresh. rewrite map_app in Hdup. cbn in Hdup.
    apply NoDup_app in Hdup as (_ & Hdup & _).
    intros Hin. apply (Hdup _ Hin). left. }
  destruct ms as [|m ms].
  - cbn [List.map join]. unfold member_text at 1, quote. cbn [fst snd].
    rewrite <- !app_assoc. cbn [Datatypes.app]. rewrite <- !app_assoc.
    cbn [Datatypes.app].
    rewrite parse_members_step.
    rewrite Hv by (done || cbn in *; lia). cbn [skip_ws].
    change (is_ws rbrace) with false. cbv iota.
    change (rbrace =? comma) with false. change (rbrace =? rbrace) with true.
    cbv iota. cbn [put]. by rewrite Hset.
  - change (join [comma] (List.map member_text ((k, v) :: m :: ms)))
      with (member_text (k, v) ++ [comma] ++ join [comma] (List.map member_text (m :: ms))).
    unfold member_text at 1, quote. cbn [fst snd].
    rewrite <- !app_assoc. cbn [Datatypes.app]. rewrite <- !app_assoc.
    cbn [Datatypes.app].
    rewrite parse_members_step.
    rewrite Hv by (left || cbn in *; lia). cbn [skip_ws].
    change (is_ws comma) with false. cbv iota.
    change (comma =? comma) with true. cbv iota. cbn [put].
    rewrite Hset.
    rewrite IH; [by rewrite <- app_assoc|done|done| |cbn in *; lia].
    by rewrite <- app_assoc.
Qed.

(** Reading the text of a value gives the value and stops after it. *)
Lemma parse_value_stringify v : distinct_keys v -> reads_back v.
Proof.
  induction v as [|b|n|str|xs IH|ms IH] using json_ind;
    intros Hwf fuel rest Hfuel Hrest;
    (destruct fuel as [|fuel]; [cbn in Hfuel; lia|]).
  - reflexivity.
  - by destruct b.
  - destruct (stringify_number_head n) as (c & s & Heq & Hc).
    cbn [stringify]. pose proof (parse_number_stringify n rest Hrest) as Hn.
    rewrite Heq in *. cbn [Datatypes.app] in *.
    by rewrite parse_value_number.
  - cbn [stringify]. unfold quote. cbn [Datatypes.app].
    rewrite parse_value_string, <- app_assoc. cbn [Datatypes.app].
    by rewrite parse_chars_quote_units.
  - inversion Hwf as [| | | |? Hxs|]; subst.
    cbn [stringify Datatypes.app]. rewrite parse_value_array.
    destruct xs as [|x xs]; [reflexivity|].
    rewrite <- app_assoc. cbn [Datatypes.app].
    destruct (stringify_head x) as (c & s & Heq & Hws & Hc).
    assert (skip_ws (join [comma] (List.map stringify (x :: xs)) ++ rbracket :: rest)
            = c :: s ++ match xs with
                        | [] => []
                        | _ => [comma] ++ join [comma] (List.map stringify xs)
                        end ++ rbracket :: rest) as ->.
    { cbn [List.map join]. rewrite Heq.
      destruct xs; cbn [List.map Datatypes.app skip_ws]; rewrite Hws;
        by rewrite <- ?app_assoc. }
    rewrite Hc.
    apply (parse_elements_join (x :: xs) []); [done| |cbn in *; lia].
    apply Forall_forall. intros y Hy.
    apply (proj1 (Forall_forall _ _) IH y Hy).
    apply (proj1 (Forall_forall _ _) Hxs y Hy).
  - inversion Hwf as [| | | | |? Hdup Hms]; subst.
    cbn [stringify Datatypes.app]. rewrite parse_value_object.
    destruct ms as [|[k v] ms]; [reflexivity|].
    rewrite <- app_assoc. cbn [Datatypes.app].
    match goal with
    | |- context [skip_ws ?t] =>
        assert (exists r, t = dquote :: r) as [r Hr]
    end.
    { cbn [List.map join fst snd]. unfold quote.
      destruct ms; cbn [List.map Datatypes.app]; eauto. }
    rewrite Hr. cbn [skip_ws]. change (is_ws dquote) with false. cbv iota.
    change (dquote =? rbrace) with false. cbv iota. rewrite <- Hr.
    apply (parse_members_join ((k, v) :: ms) []); [done| |done|cbn in *; lia].
    apply Forall_forall. intros m Hm.
    apply (proj1 (Forall_forall _ _) IH m Hm).
    apply (proj1 (Forall_forall _ _) Hms m Hm).
Qed.

Lemma join_size {A} (f : A -> jstring) (g : A -> nat) (l : list A) :
  Forall (fun a => (g a <= length (f a))%nat) l ->
  (list_sum (List.map (fun a => S (g a)) l) <= S (length (join [comma] (List.map f l))))%nat.
Proof.
  induction 1 as [|a l Ha Hl IH]; [cbn; lia|].
  destruct l as [|b l].
  - cbn. lia.
  - change (join [comma] (List.map f (a :: b :: l)))
      with (f a ++ [comma] ++ join [comma] (List.map f (b :: l))).
    rewrite !length_app.
    change (list_sum (List.map (fun a => S (g a)) (a :: b :: l)))
      with (S (g a) + list_sum (List.map (fun a => S (g a)) (b :: l)))%nat.
    cbn [length]. lia.
Qed.

Lemma size_stringify v : (size v <= length (stringify v))%nat.
Proof.
  induction v as [|b|n|str|xs IH|ms IH] using json_ind.
  - cbn. lia.
  - destruct b; cbn; lia.
  - destruct (stringify_number_head n) as (c & s & Heq & _).
    cbn [size stringify]. rewrite Heq. cbn. lia.
  - cbn. lia.
  - cbn [size stringify length]. rewrite length_app. cbn [length].
    pose proof (join_size stringify size xs IH). lia.
  - cbn [size stringify length]. rewrite length_app. cbn [length].
    assert (list_sum (List.map (fun m => S (size (snd m))) ms)
            <= S (length (join [comma] (List.map member_text ms))))%nat as Hj.
    { apply (join_size member_text (fun m => size (snd m)) ms).
      eapply Forall_impl; [exact IH|].
      intros [k v] Hv. cbn [snd] in *. unfold member_text.
      rewrite length_app. cbn [snd length]. lia. }
    apply le_n_S. rewrite Nat.add_1_r. exact Hj.
Qed.

(** [JSON.parse (JSON.stringify v) = v], for every value [v] of the model. *)
Theorem parse_stringify v : distinct_keys v -> parse (stringify v) = Parsed v.
Proof.
  intros Hv. unfold parse.
  pose proof (parse_value_stringify v Hv (S (length (stringify v))) []) as Hp.
  rewrite app_nil_r in Hp. rewrite Hp; [done| |done].
  pose proof (size_stringify v). lia.
Qed.

(** The empty text is not JSON. *)
Lemma parse_nil : parse [] = Invalid.
Proof. reflexivity. Qed.

(** Number literals with a fraction or an exponent are JSON: those that
    denote an integer are read as it, the others are read without a value;
    a point or an exponent mark without digits, a leading zero or a
    leading plus make the text invalid. *)
Example parse_number_literals :
  parse (js "1e3") = Parsed (JNumber 1000) /\
  parse (js "2.0") = Parsed (JNumber 2) /\
  parse (js "-0.0") = Parsed (JNumber 0) /\
  parse (js "1E2") = Parsed (JNumber 100) /\
  parse (js "1.5e+3") = Parsed (JNumber 1500) /\
  parse (js "-25e-1") = Unrepresented /\
  parse (js "1.5") = Unrepresented /\
  parse (js "[1.5]") = Unrepresented /\
  parse (js "[1, 0.25, 3]") = Unrepresented /\
  parse (js "[1.5") = Invalid /\
  parse (js "[1.5, }") = Invalid /\
  parse (js "1.") = Invalid /\
  parse (js ".5") = Invalid /\
  parse (js "1e") = Invalid /\
  parse (js "1e+") = Invalid /\
  parse (js "1.e3") = Invalid /\
  parse (js "01") = Invalid /\
  parse (js "+1") = Invalid /\
  parse (js "-") = Invalid /\
  parse (js "1.5.2") = Invalid /\
  parse (js "1e2e3") = Invalid /\
  parse (js "0x10") = Invalid.
Proof. repeat split; reflexivity. Qed.

Lemma stringify_nonempty v : stringify v <> [].
Proof. destruct (stringify_head v) as (c & s & -> & _). done. Qed.


(** ** The fuel of the reader *)

Lemma skip_ws_length s : (length (skip_ws s) <= length s)%nat.
Proof.
  induction s as [|c s IH]; [done|]. cbn [skip_ws].
  destruct (is_ws c); cbn [length]; lia.
Qed.

Lemma prepend_Some c res str r :
  prepend c res = Some (str, r) -> exists str', res = Some (str', r) /\ str = c :: str'.
Proof. destruct res as [[str' r']|]; [|done]. intros [= <- <-]. eauto. Qed.

Lemma parse_chars_length_bounded n : forall s str r,
  (length s <= n)%nat -> parse_chars s = Some (str, r) -> (length r < length s)%nat.
Proof.
  induction n as [|n IH]; intros [|c s] str r Hn; cbn [length] in Hn; try lia; [done..|].
  cbn [parse_chars].
  destruct (c =? dquote). { intros [= <- <-]. cbn [length]. lia. }
  destruct (c =? backslash).
  - destruct s as [|e s]; [done|].
    destruct (e =? ch "u").
    + destruct s as [|h1 [|h2 [|h3 [|h4 s]]]]; try done.
      destruct (hex4 h1 h2 h3 h4); [|done].
      intros (str' & Hp & _)%prepend_Some. apply IH in Hp; cbn [length] in *; lia.
    + destruct (unescape e); [|done].
      intros (str' & Hp & _)%prepend_Some. apply IH in Hp; cbn [length] in *; lia.
  - destruct (c <? 32); [done|].
    intros (str' & Hp & _)%prepend_Some. apply IH in Hp; cbn [length] in *; lia.
Qed.

Lemma parse_chars_length s str r :
  parse_chars s = Some (str, r) -> (length r < length s)%nat.
Proof. by apply (parse_chars_length_bounded (length s)). Qed.

Lemma read_digits_length s d r :
  read_digits s = (d, r) ->
  (length r <= length s)%nat /\ (d <> Decimal.Nil -> (length r < length s)%nat).
Proof.
  revert d r. induction s as [|c s IH]; intros d r; cbn [read_digits].
  - intros [= <- <-]. done.
  - destruct (digit_of c) as [k|].
    + destruct (read_digits s) as [d' r'] eqn:Hs. intros [= <- <-].
      destruct (IH d' r' eq_refl) as [Hle _]. cbn [length]. split; lia.
    + intros [= <- <-]. done.
Qed.

Lemma read_fraction_length s d r :
  read_fraction s = Some (d, r) -> (length r <= length s)%nat.
Proof.
  destruct s as [|c s]; cbn [read_fraction]; [by intros [= <- <-]|].
  destruct (c =? ch "."); [|by intros [= <- <-]].
  destruct (read_digits s) as [d' r'] eqn:Hd.
  apply read_digits_length in Hd as [Hle _].
  destruct d'; [done|..]; intros [= <- <-]; cbn [length]; lia.
Qed.

Lemma read_exponent_length s e r :
  read_exponent s = Some (e, r) -> (length r <= length s)%nat.
Proof.
  destruct s as [|c s]; cbn [read_exponent]; [by intros [= <- <-]|].
  destruct ((c =? ch "e") || (c =? ch "E")); [|by intros [= <- <-]].
  assert (forall neg s2, (length s2 <= length s)%nat ->
            match read_digits s2 with
            | (Decimal.Nil, _) => None
            | (d, r) => Some (if neg : bool then (- Z.of_uint d)%Z else Z.of_uint d, r)
            end = Some (e, r) -> (length r <= length (c :: s))%nat) as Hread.
  { intros neg s2 Hs2. destruct (read_digits s2) as [d' r'] eqn:Hd.
    apply read_digits_length in Hd as [Hle _].
    destruct d'; [done|..]; intros [= <- <-]; cbn [length]; lia. }
  destruct s as [|c' s']; [by apply (Hread false)|].
  destruct (c' =? minus); [apply (Hread true); cbn [length]; lia|].
  destruct (c' =? ch "+"); apply (Hread false); cbn [length]; lia.
Qed.

Lemma parse_number_length s v r :
  parse_number s = Some (v, r) -> (length r < length s)%nat.
Proof.
  unfold parse_number.
  assert (forall neg d r', (length r' < length s)%nat ->
            (if int_digits d
             then match read_fraction r' with
                  | Some (f, r1) =>
                      match read_exponent r1 with
                      | Some (e, r2) => Some (JNumber <$> number_value neg d f e, r2)
                      | None => None
                      end
                  | None => None
                  end
             else None) = Some (v, r) -> (length r < length s)%nat) as Htail.
  { intros neg d r' Hlt. destruct (int_digits d); [|done].
    destruct (read_fraction r') as [[f r1]|] eqn:Hf; [|done].
    destruct (read_exponent r1) as [[e r2]|] eqn:He; [|done].
    intros [= <- <-]. apply read_fraction_length in Hf.
    apply read_exponent_length in He. lia. }
  destruct s as [|c s].
  - cbn. done.
  - destruct (c =? minus).
    + destruct (read_digits s) as [d r'] eqn:Hd.
      apply Htail. apply read_digits_length in Hd as [Hle _]. cbn [length]. lia.
    + destruct (read_digits (c :: s)) as [d r'] eqn:Hd.
      destruct (int_digits d) eqn:Hint; [|done].
      intros Hp. apply (Htail false d r'); [|by rewrite Hint].
      apply read_digits_length in Hd as [_ Hlt].
      apply Hlt. by apply int_digits_nonnil.
Qed.

Lemma expect_length word : forall s r, expect word s = Some r -> (length r <= length s)%nat.
Proof.
  induction word as [|w word IH]; intros s r; cbn [expect].
  - by intros [= <-].
  - destruct s as [|c s]; [done|]. destruct (c =? w); [|done].
    intros Hr%IH. cbn [length]. lia.
Qed.

(** Replays a successful run of one reader step with another fuel. *)
Ltac replay :=
  let f' := fresh "f'" in
  intros [|f'] ?; [cbn [length] in *; lia|];
  cbn [parse_value parse_elements parse_members];
  repeat match goal with
         | H : ?x = _ |- context [?x] => rewrite H
         end.

Lemma value_settled_step f :
  elements_settled f -> members_settled f -> value_settled (S f).
Proof.
  intros IHe IHm s v r Hp. cbn [parse_value] in Hp.
  pose proof (skip_ws_length s) as Hlen.
  destruct (skip_ws s) as [|c r0] eqn:Hskip; [done|]. cbn [length] in Hlen.
  destruct (c =? dquote) eqn:Hq.
  { destruct (parse_chars r0) as [[str r']|] eqn:Hc; [|done].
    injection Hp as <- <-. pose proof (parse_chars_length _ _ _ Hc).
    split; [lia|]. by replay. }
  destruct (c =? lbracket) eqn:Hb.
  { pose proof (skip_ws_length r0) as Hlen2.
    destruct (skip_ws r0) as [|c' r'] eqn:Hs2; [done|]. cbn [length] in Hlen2.
    destruct (c' =? rbracket) eqn:Hrb.
    - injection Hp as <- <-. split; [lia|]. by replay.
    - apply IHe in Hp as [Hlt Hall]. split; [lia|]. replay. apply Hall. lia. }
  destruct (c =? lbrace) eqn:Hbr.
  { pose proof (skip_ws_length r0) as Hlen2.
    destruct (skip_ws r0) as [|c' r'] eqn:Hs2; [done|]. cbn [length] in Hlen2.
    destruct (c' =? rbrace) eqn:Hrb.
    - injection Hp as <- <-. split; [lia|]. by replay.
    - apply IHm in Hp as [Hlt Hall]. split; [lia|]. replay. apply Hall. lia. }
  destruct (c =? ch "n") eqn:Hn.
  { destruct (expect (js "ull") r0) as [r'|] eqn:He; [|done].
    injection Hp as <- <-. apply expect_length in He as Hle.
    split; [lia|]. by replay. }
  destruct (c =? ch "t") eqn:Ht.
  { destruct (expect (js "rue") r0) as [r'|] eqn:He; [|done].
    injection Hp as <- <-. apply expect_length in He as Hle.
    split; [lia|]. by replay. }
  destruct (c =? ch "f") eqn:Hf.
  { destruct (expect (js "alse") r0) as [r'|] eqn:He; [|done].
    injection Hp as <- <-. apply expect_length in He as Hle.
    split; [lia|]. by replay. }
  apply parse_number_length in Hp as Hlt. cbn [length] in Hlt.
  split; [lia|]. by replay.
Qed.

Lemma elements_settled_step f :
  value_settled f -> elements_settled f -> elements_settled (S f).
Proof.
  intros IHv IHe acc s v r Hp. cbn [parse_elements] in Hp.
  destruct (parse_value f s) as [[v1 r1]|] eqn:Hv; [|done].
  apply IHv in Hv as [Hlt1 Hall1].
  pose proof (skip_ws_length r1) as Hlen.
  destruct (skip_ws r1) as [|c r2] eqn:Hskip; [done|]. cbn [length] in Hlen.
  destruct (c =? comma) eqn:Hc.
  - apply IHe in Hp as [Hlt Hall]. split; [lia|].
    intros [|f'] Hf'; [lia|]. cbn [parse_elements].
    rewrite Hall1, Hskip, Hc by lia. apply Hall. lia.
  - destruct (c =? rbracket) eqn:Hb; [|done]. injection Hp as <- <-.
    split; [lia|].
    intros [|f'] Hf'; [lia|]. cbn [parse_elements].
    by rewrite Hall1, Hskip, Hc, Hb by lia.
Qed.

Lemma members_settled_step f :
  value_settled f -> members_settled f -> members_settled (S f).
Proof.
  intros IHv IHm acc s v r Hp. cbn [parse_members] in Hp.
  pose proof (skip_ws_length s) as Hlen0.
  destruct (skip_ws s) as [|q s1] eqn:Hskip0; [done|]. cbn [length] in Hlen0.
  destruct (q =? dquote) eqn:Hq; [|done].
  destruct (parse_chars s1) as [[k s2]|] eqn:Hk; [|done].
  pose proof (parse_chars_length _ _ _ Hk) as Hlenk.
  pose proof (skip_ws_length s2) as Hlen2.
  destruct (skip_ws s2) as [|c s3] eqn:Hskip2; [done|]. cbn [length] in Hlen2.
  destruct (c =? colon) eqn:Hcolon; [|done].
  destruct (parse_value f s3) as [[v1 r1]|] eqn:Hv; [|done].
  apply IHv in Hv as [Hlt1 Hall1].
  pose proof (skip_ws_length r1) as Hlen.
  destruct (skip_ws r1) as [|c' r2] eqn:Hskip; [done|]. cbn [length] in Hlen.
  destruct (c' =? comma) eqn:Hc.
  - apply IHm in Hp as [Hlt Hall]. split; [lia|].
    intros [|f'] Hf'; [lia|]. cbn [parse_members].
    rewrite Hskip0, Hq, Hk, Hskip2, Hcolon, Hall1, Hskip, Hc by lia. apply Hall. lia.
  - destruct (c' =? rbrace) eqn:Hb; [|done]. injection Hp as <- <-.
    split; [lia|].
    intros [|f'] Hf'; [lia|]. cbn [parse_members].
    by rewrite Hskip0, Hq, Hk, Hskip2, Hcolon, Hall1, Hskip, Hc, Hb by lia.
Qed.

Lemma readers_settled f : value_settled f /\ elements_settled f /\ members_settled f.
Proof.
  induction f as [|f (IHv & IHe & IHm)].
  - split; [|split]; red; intros; discriminate.
  - split; [by apply value_settled_step|].
    split; [by apply elements_settled_step|by apply members_settled_step].
Qed.

(** The fuel that [parse] starts with is always enough: more fuel gives
    the same result, so [None] is a syntax error and never a shortage. *)
Theorem parse_value_fuel f s :
  (length s < f)%nat -> parse_value f s = parse_value (S (length s)) s.
Proof.
  intros Hf.
  destruct (parse_value f s) as [[v r]|] eqn:H1.
  - destruct (readers_settled f) as (Hv & _). apply Hv in H1 as [Hlt Hall].
    symmetry. apply Hall. lia.
  - destruct (parse_value (S (length s)) s) as [[v r]|] eqn:H2; [|done].
    destruct (readers_settled (S (length s))) as (Hv & _). apply Hv in H2 as [Hlt Hall].
    rewrite Hall in H1 by lia. done.
Qed.

End JSONFacts.

Import JSONFacts.

(** * The JSON forms of the shell's data obey the laws *)

Lemma of_json_all_to_json {A} `{JSONLaws A} (l : list A) :
  of_json_all (List.map to_json l) = Some l.
Proof.
  induction l as [|a l IH]; [done|].
  cbn [List.map of_json_all]. by rewrite of_to_json, IH.
Qed.

#[export] Instance number_JSONLaws : JSONLaws Z.
Proof. split; [done|constructor]. Qed.

#[export] Instance array_JSONLaws {A} `{JSONLaws A} : JSONLaws (list A).
Proof.
  split; intros l; cbn [to_json of_json array_JSONData].
  - apply of_json_all_to_json.
  - constructor. apply Forall_map, Forall_forall. intros a _. apply to_json_distinct.
Qed.

#[export] Instance QuizStats_JSONLaws : JSONLaws QuizStats.
Proof.
  split; intros [c t s b]; [reflexivity|].
  constructor; [|repeat constructor].
  apply (bool_decide_unpack _). by vm_compute.
Qed.

#[export] Instance StudyStats_JSONLaws : JSONLaws StudyStats.
Proof.
  split; intros [[c t s b] st g]; [reflexivity|].
  constructor.
  - apply (bool_decide_unpack _). by vm_compute.
  - apply List.Forall_cons; [apply (to_json_distinct (A:=QuizStats))|].
    apply List.Forall_cons; [constructor|].
    apply List.Forall_cons; [constructor|]. apply List.Forall_nil.
Qed.

#[export] Instance point_JSONLaws : @JSONLaws Example.point Example.point_JSONData.
Proof.
  split; intros [i k]; [reflexivity|].
  constructor; [|repeat constructor].
  apply (bool_decide_unpack _). by vm_compute.
Qed.

(** * Facts about the shell *)

Section ShellFacts.
Context `{GrammarTypes}.

(** ** Reading back what was written *)

Lemma truthy_stringify v : truthy (Some (stringify v)) = Some (stringify v).
Proof.
  pose proof (stringify_nonempty v). by destruct (stringify v).
Qed.

Lemma loadSaved_stored `{!JSONLaws GrammarPoint} saved ls :
  ls !! savedKey = Some (stringify (to_json saved)) -> loadSaved ls = Done (Some saved).
Proof.
  intros Hget. unfold loadSaved. rewrite Hget, truthy_stringify.
  rewrite parse_stringify by apply to_json_distinct.
  by rewrite of_to_json.
Qed.

Lemma loadStats_stored stats ls :
  ls !! statsKey = Some (stringify (to_json stats)) -> loadStats ls = Done (Some stats).
Proof.
  intros Hget. unfold loadStats. rewrite Hget, truthy_stringify.
  rewrite parse_stringify by apply to_json_distinct.
  by rewrite of_to_json.
Qed.

Lemma loadSaved_persistSaved `{!JSONLaws GrammarPoint} saved ls :
  loadSaved (persistSaved saved ls) = Done (Some saved).
Proof. apply loadSaved_stored, lookup_insert_eq. Qed.

Lemma loadStats_persistStats stats ls :
  loadStats (persistStats stats ls) = Done (Some stats).
Proof. apply loadStats_stored, lookup_insert_eq. Qed.

Lemma loadSaved_persistStats stats ls : loadSaved (persistStats stats ls) = loadSaved ls.
Proof. unfold loadSaved, persistStats. by rewrite lookup_insert_ne. Qed.

Lemma loadStats_persistSaved saved ls : loadStats (persistSaved saved ls) = loadStats ls.
Proof. unfold loadStats, persistSaved. by rewrite lookup_insert_ne. Qed.

(** ** The interval is armed exactly on the rooms screen *)

Lemma mount_interval_inv ls w : mount ls = Done w -> interval_inv w.
Proof.
  unfold mount. destruct (both _ _) as [[saved stats]| |]; [|done..].
  by intros [= <-].
Qed.

Lemma rearm_inv old new armed :
  armed = studyTimeEffect old -> rearm old new armed = studyTimeEffect new.
Proof. unfold rearm. intros ->. by destruct (decide (old = new)) as [->|]. Qed.

Lemma fire_interval_inv e w w' : fire e w = Some w' -> interval_inv w -> interval_inv w'.
Proof.
  unfold interval_inv.
  destruct e; cbn [fire]; try (intros [= <-]; cbn; first [done | by apply rearm_inv]).
  destruct (interval w); [|done]. by intros [= <-].
Qed.

Lemma run_interval_inv es : forall w w',
  run es w = Some w' -> interval_inv w -> interval_inv w'.
Proof.
  induction es as [|e es IH]; intros w w'; cbn [run].
  - by intros [= <-].
  - destruct (fire e w) as [w1|] eqn:Hfire; [|done].
    intros Hrun Hinv. eapply IH; [done|]. by eapply fire_interval_inv.
Qed.

(** ** Study time *)

Lemma fire_studyTime e w w' :
  fire e w = Some w' ->
  (studyTime (studyStats (state w)) <= studyTime (studyStats (state w')))%Z.
Proof.
  destruct e; cbn [fire]; try (intros [= <-]; cbn; lia).
  destruct (interval w); [|done]. intros [= <-]. cbn. lia.
Qed.

Lemma run_studyTime es : forall w w',
  run es w = Some w' ->
  (studyTime (studyStats (state w)) <= studyTime (studyStats (state w')))%Z.
Proof.
  induction es as [|e es IH]; intros w w'; cbn [run].
  - intros [= <-]. lia.
  - destruct (fire e w) as [w1|] eqn:Hfire; [|done].
    intros Hrun. apply fire_studyTime in Hfire. apply IH in Hrun. lia.
Qed.

(** ** Saved grammar points *)

Lemma find_id_None grammar saved :
  List.find (fun g => bool_decide (id g = id grammar)) saved = None <->
  id grammar ∉ ids saved.
Proof.
  unfold ids. induction saved as [|g saved IH]; cbn [List.find List.map].
  - split; [intros _|done]. apply not_elem_of_nil.
  - rewrite not_elem_of_cons. case_bool_decide as Hg.
    + split; [done|]. intros [Hne _]. by destruct Hne.
    + rewrite IH. split; [intros ?; split; [congruence|done]|by intros [_ ?]].
Qed.

Lemma saveUpdater_known grammar saved :
  id grammar ∈ ids saved -> saveUpdater grammar saved = saved.
Proof.
  intros Hin. unfold saveUpdater.
  destruct (List.find _ saved) eqn:Hfind; [done|].
  by apply find_id_None in Hfind.
Qed.

Lemma saveUpdater_new grammar saved :
  id grammar ∉ ids saved -> saveUpdater grammar saved = saved ++ [grammar].
Proof. intros Hin. unfold saveUpdater. by apply find_id_None in Hin as ->. Qed.

Lemma saveUpdater_prefix grammar saved : saved `prefix_of` saveUpdater grammar saved.
Proof.
  unfold saveUpdater. destruct (List.find _ saved); [done|]. by apply prefix_app_r.
Qed.

Lemma saveUpdater_NoDup grammar saved :
  NoDup (ids saved) -> NoDup (ids (saveUpdater grammar saved)).
Proof.
  intros Hdup. destruct (decide (id grammar ∈ ids saved)) as [Hin|Hin].
  - by rewrite saveUpdater_known.
  - rewrite saveUpdater_new by done. unfold ids in *. rewrite map_app.
    apply NoDup_app. split; [done|]. split; [|apply NoDup_singleton].
    intros i Hi Hi'. apply list_elem_of_In in Hi' as [Heq|[]]. by subst i.
Qed.

Lemma fire_savedGrammar e w w' :
  fire e w = Some w' ->
  savedGrammar (state w) `prefix_of` savedGrammar (state w') /\
  (NoDup (ids (savedGrammar (state w))) -> NoDup (ids (savedGrammar (state w')))).
Proof.
  destruct e; cbn [fire]; try (intros [= <-]; cbn; done).
  - intros [= <-]. cbn. split; [apply saveUpdater_prefix|apply saveUpdater_NoDup].
  - destruct (interval w); [|done]. by intros [= <-].
Qed.

Lemma run_savedGrammar es : forall w w',
  run es w = Some w' ->
  savedGrammar (state w) `prefix_of` savedGrammar (state w') /\
  (NoDup (ids (savedGrammar (state w))) -> NoDup (ids (savedGrammar (state w')))).
Proof.
  induction es as [|e es IH]; intros w w'; cbn [run].
  - by intros [= <-].
  - destruct (fire e w) as [w1|] eqn:Hfire; [|done].
    intros Hrun. apply fire_savedGrammar in Hfire as [Hp1 Hd1].
    apply IH in Hrun as [Hp2 Hd2]. split; [by etrans|auto].
Qed.

Lemma saveUpdater_same_length grammar saved :
  length (saveUpdater grammar saved) = length saved -> saveUpdater grammar saved = saved.
Proof.
  unfold saveUpdater. destruct (List.find _ saved); [done|].
  rewrite length_app. cbn [length]. lia.
Qed.

(** ** The storage mirrors the state *)

Lemma persist_mirrored saved stats ls :
  let ls' := persistStats stats (persistSaved saved ls) in
  ls' !! savedKey = Some (stringify (to_json saved)) /\
  ls' !! statsKey = Some (stringify (to_json stats)).
Proof.
  unfold persistStats, persistSaved. split.
  - rewrite lookup_insert_ne by done. apply lookup_insert_eq.
  - apply lookup_insert_eq.
Qed.

Lemma mount_mirrored ls w : mount ls = Done w -> mirrored w.
Proof.
  unfold mount. destruct (both _ _) as [[saved stats]| |]; [|done..].
  intros [= <-]. unfold mirrored. cbn [state localStorage savedGrammar studyStats].
  unfold persistStats, persistSaved.
  destruct saved as [l|], stats as [s|]; cbn [default from_option]; split;
    repeat first [apply lookup_insert_eq | rewrite lookup_insert_ne by done].
Qed.

Lemma fire_mirrored e w w' : fire e w = Some w' -> mirrored w -> mirrored w'.
Proof.
  unfold mirrored. intros Hfire [Hsaved Hstats].
  destruct e; cbn [fire] in Hfire;
    try (injection Hfire as <-;
         cbn [state localStorage savedGrammar studyStats handleScreenChange
              handleLevelSelect handleQuizComplete handleGameComplete];
         unfold persistStats;
         split; [by rewrite ?lookup_insert_ne by done|by rewrite ?lookup_insert_eq]).
  - injection Hfire as <-.
    cbn [state localStorage savedGrammar studyStats handleSaveGrammar].
    destruct (decide _) as [Hlen|Hlen].
    + by rewrite (saveUpdater_same_length _ _ Hlen).
    + unfold persistSaved. split; [apply lookup_insert_eq|by rewrite lookup_insert_ne].
  - destruct (interval w); [|done]. injection Hfire as <-.
    cbn [state localStorage savedGrammar studyStats intervalCallback].
    unfold persistStats.
    split; [by rewrite lookup_insert_ne|apply lookup_insert_eq].
Qed.

Lemma run_mirrored es : forall w w', run es w = Some w' -> mirrored w -> mirrored w'.
Proof.
  induction es as [|e es IH]; intros w w'; cbn [run].
  - by intros [= <-].
  - destruct (fire e w) as [w1|] eqn:Hfire; [|done].
    intros Hrun Hm. eapply IH; [done|]. by eapply fire_mirrored.
Qed.

(** Mounting again over the storage a session left behind restores the
    saved grammar and the statistics of that session. *)
Theorem mount_restores `{!JSONLaws GrammarPoint} w :
  mirrored w ->
  exists w', mount (localStorage w) = Done w' /\
    savedGrammar (state w') = savedGrammar (state w) /\
    studyStats (state w') = studyStats (state w) /\
    currentScreen (state w') = welcome.
Proof.
  intros [Hsaved Hstats]. unfold mount.
  rewrite (loadSaved_stored _ _ Hsaved), (loadStats_stored _ _ Hstats).
  cbn [both]. eexists. split; [reflexivity|]. done.
Qed.

(** ** Quiz statistics *)

Lemma quizUpdater_correct_le_total c t prev :
  (0 <= c <= t)%Z ->
  (correct (quizStats prev) <= total (quizStats prev))%Z ->
  (correct (quizStats (quizUpdater c t prev)) <= total (quizStats (quizUpdater c t prev)))%Z.
Proof. cbn. lia. Qed.

Lemma fire_correct_le_total e w w' :
  valid_round e -> fire e w = Some w' ->
  (correct (quizStats (studyStats (state w))) <= total (quizStats (studyStats (state w))))%Z ->
  (correct (quizStats (studyStats (state w'))) <= total (quizStats (studyStats (state w'))))%Z.
Proof.
  destruct e; cbn [fire valid_round]; intros Hv;
    try (intros [= <-]; cbn; lia).
  destruct (interval w); [|done]. by intros [= <-].
Qed.

Lemma run_correct_le_total es : forall w w',
  Forall valid_round es -> run es w = Some w' ->
  (correct (quizStats (studyStats (state w))) <= total (quizStats (studyStats (state w))))%Z ->
  (correct (quizStats (studyStats (state w'))) <= total (quizStats (studyStats (state w'))))%Z.
Proof.
  induction es as [|e es IH]; intros w w' Hv; cbn [run].
  - by intros [= <-].
  - apply Forall_cons in Hv as [He Hes].
    destruct (fire e w) as [w1|] eqn:Hfire; [|done].
    intros Hrun Hle. eapply IH; [done..|]. by eapply fire_correct_le_total.
Qed.

(** The best streak is never behind the streak of the state before. *)
Lemma quizUpdater_bestStreak c t prev :
  (streak (quizStats prev) <= bestStreak (quizStats (quizUpdater c t prev)))%Z /\
  (bestStreak (quizStats prev) <= bestStreak (quizStats (quizUpdater c t prev)))%Z.
Proof. cbn. lia. Qed.

End ShellFacts.

(** * The properties of the specification *)

Section Claims.
Context `{GrammarTypes}.

(** C1 (the code departs from it).  The invariant [bestStreak >= streak]
    fails in a reachable state: from the fresh shell, where it holds,
    entering the museum, opening the games and finishing a first perfect
    game of five questions leaves [streak = 5] with [bestStreak = 0],
    because [handleQuizComplete] takes the maximum with the streak from
    before the round instead of the new one. *)
Theorem C1_bestStreak_behind_streak :
  exists w,
    reachable w /\
    run [ScreenChange entrance; ScreenChange games; GameComplete 5 5] freshShell = Some w /\
    studyStats (state w) = quizUpdater 5 5 defaultStats /\
    (bestStreak (quizStats defaultStats) >= streak (quizStats defaultStats))%Z /\
    streak (quizStats (studyStats (state w))) = 5%Z /\
    bestStreak (quizStats (studyStats (state w))) = 0%Z /\
    ~ (bestStreak (quizStats (studyStats (state w)))
       >= streak (quizStats (studyStats (state w))))%Z.
Proof.
  eexists.
  split; [exists [ScreenChange entrance; ScreenChange games; GameComplete 5 5]; reflexivity|].
  split; [reflexivity|].
  split; [reflexivity|]. lazy. repeat split; congruence.
Qed.

(** C2 (as amended).  When each of the two keys is absent or holds the
    empty string, the load effect leaves the saved grammar and the
    statistics at their defaults and raises nothing.  When the text under
    [korean-grammar-saved] or the text under [korean-grammar-stats] is not
    empty and not JSON, [JSON.parse] throws a SyntaxError and nothing
    catches it: the load effect, and with it mounting, ends in that
    exception. *)
Theorem C2_load_absent_or_malformed (ls : gmap string jstring) (st : AppState) :
  (unset ls savedKey -> unset ls statsKey ->
     loadEffect ls initialState = Done initialState /\
     exists w, mount ls = Done w /\ state w = initialState) /\
  (malformed ls savedKey \/ malformed ls statsKey ->
     loadEffect ls st = Threw SyntaxError /\ mount ls = Threw SyntaxError).
Proof.
  split.
  - intros Hsaved Hstats.
    assert (truthy (ls !! savedKey) = None) as Hs
      by (destruct Hsaved as [Hx | Hx]; by rewrite Hx).
    assert (truthy (ls !! statsKey) = None) as Ht
      by (destruct Hstats as [Hx | Hx]; by rewrite Hx).
    unfold loadEffect, mount, loadSaved, loadStats. rewrite Hs, Ht.
    split; [reflexivity|]. eexists. split; reflexivity.
  - intros Hbad.
    assert (both (loadSaved ls) (loadStats ls) = Threw SyntaxError) as Hthrow.
    { destruct Hbad as [(text & Hget & Hne & Hparse) | (text & Hget & Hne & Hparse)].
      - unfold loadSaved. rewrite Hget.
        destruct text as [|c text]; [done|]. cbn [truthy]. by rewrite Hparse.
      - assert (loadStats ls = Threw SyntaxError) as ->.
        { unfold loadStats. rewrite Hget.
          destruct text as [|c text]; [done|]. cbn [truthy]. by rewrite Hparse. }
        by destruct (loadSaved ls) as [r|[]|]. }
    unfold loadEffect, mount. by rewrite Hthrow.
Qed.

(** C3.  One call [handleQuizComplete correct total] with
    [0 <= correct <= total] adds [correct] to the running count of
    correct answers and [total] to the running total, sets the streak to
    the old streak plus [correct] when the round is perfect and to 0
    otherwise, and sets the best streak to the maximum of the old best
    streak and the old streak. *)
Theorem C3_handleQuizComplete_rule (c t : Z) (st : AppState) :
  (0 <= c)%Z -> (c <= t)%Z ->
  let old := quizStats (studyStats st) in
  let new := quizStats (studyStats (handleQuizComplete c t st)) in
  correct new = (correct old + c)%Z /\
  total new = (total old + t)%Z /\
  (c = t -> streak new = (streak old + c)%Z) /\
  (c <> t -> streak new = 0%Z) /\
  bestStreak new = Z.max (bestStreak old) (streak old).
Proof.
  intros Hc Ht. cbn. repeat split.
  - intros ->. by rewrite Z.eqb_refl.
  - intros Hne. by apply Z.eqb_neq in Hne as ->.
Qed.

(** C4.  In every state reached from a mounted shell, an interval is
    armed, with a delay of 1000 ms, exactly when the current screen is
    [rooms], and only then can it fire; a firing adds exactly 1 to
    [studyTime]; and no event of the shell ever lowers [studyTime], so it
    never goes below its value at mount time. *)
Theorem C4_study_time_ticker (ls : gmap string jstring) (w0 w : Shell) (es : list event) :
  mount ls = Done w0 -> run es w0 = Some w ->
  (is_Some (fire IntervalFires w) <-> currentScreen (state w) = rooms) /\
  (interval w = if decide (currentScreen (state w) = rooms) then Some 1000%Z else None) /\
  (forall w', fire IntervalFires w = Some w' ->
     studyTime (studyStats (state w')) = (studyTime (studyStats (state w)) + 1)%Z) /\
  (studyTime (studyStats (state w0)) <= studyTime (studyStats (state w)))%Z /\
  (forall e w', fire e w = Some w' ->
     (studyTime (studyStats (state w)) <= studyTime (studyStats (state w')))%Z).
Proof.
  intros Hmount Hrun.
  assert (interval_inv w) as Hinv
    by (eapply run_interval_inv; [done|by eapply mount_interval_inv]).
  unfold interval_inv, studyTimeEffect in Hinv.
  split; [|split; [exact Hinv|split; [|split]]].
  - cbn [fire]. rewrite Hinv. destruct (decide _) as [Hrooms|Hrooms].
    + split; [done|]. intros _. eauto.
    + split; [by intros [w' Hw']|done].
  - intros w'. cbn [fire]. destruct (interval w); [|done]. by intros [= <-].
  - by apply (run_studyTime es).
  - intros e w'. apply fire_studyTime.
Qed.

(** C5.  Saving a grammar point whose id is already among the saved ones
    leaves the saved list as it is; saving one with a new id appends it at
    the end.  Hence, from a list without duplicate ids, any sequence of
    saves gives a list without duplicate ids of which the first list is a
    prefix. *)
Theorem C5_handleSaveGrammar_dedup (g : GrammarPoint) (st : AppState) (gs : list GrammarPoint) :
  ((exists x, x ∈ savedGrammar st /\ id x = id g) ->
     savedGrammar (handleSaveGrammar g st) = savedGrammar st) /\
  (~ (exists x, x ∈ savedGrammar st /\ id x = id g) ->
     savedGrammar (handleSaveGrammar g st) = savedGrammar st ++ [g]) /\
  (NoDup (ids (savedGrammar st)) ->
     NoDup (ids (savedGrammar (foldl (fun s x => handleSaveGrammar x s) st gs))) /\
     savedGrammar st `prefix_of` savedGrammar (foldl (fun s x => handleSaveGrammar x s) st gs)).
Proof.
  split; [|split].
  - intros (x & Hx & Hid). cbn. apply saveUpdater_known.
    rewrite <- Hid. unfold ids. apply list_elem_of_fmap. eauto.
  - intros Hno. cbn. apply saveUpdater_new. unfold ids.
    intros (x & Hid & Hx)%list_elem_of_fmap. apply Hno. eauto.
  - revert st. induction gs as [|x gs IH]; intros st Hdup; cbn [foldl]; [done|].
    destruct (IH (handleSaveGrammar x st)) as [Hd Hp].
    { cbn. by apply saveUpdater_NoDup. }
    split; [done|]. etrans; [|exact Hp]. cbn. apply saveUpdater_prefix.
Qed.

(** C6.  When every reported round has [0 <= correct <= total], every
    state reached from the fresh shell has
    [quizStats.correct <= quizStats.total]. *)
Theorem C6_correct_le_total (es : list event) (w : Shell) :
  Forall valid_round es -> run es freshShell = Some w ->
  (correct (quizStats (studyStats (state w))) <= total (quizStats (studyStats (state w))))%Z.
Proof.
  intros Hv Hrun. eapply run_correct_le_total; [done..|]. cbn. lia.
Qed.

(** C7.  Whatever list of grammar points the persistence effect wrote
    under [korean-grammar-saved], the load effect reads back that list:
    the same elements in the same order. *)
Theorem C7_load_after_persist `{!JSONLaws GrammarPoint}
    (saved : list GrammarPoint) (ls : gmap string jstring) :
  persistSaved saved ls !! savedKey = Some (stringify (to_json saved)) /\
  loadSaved (persistSaved saved ls) = Done (Some saved) /\
  (forall stats st,
     exists st', loadEffect (persistStats stats (persistSaved saved ls)) st = Done st' /\
                 savedGrammar st' = saved).
Proof.
  split; [apply lookup_insert_eq|]. split; [apply loadSaved_persistSaved|].
  intros stats st. unfold loadEffect.
  rewrite loadSaved_persistStats, loadSaved_persistSaved, loadStats_persistStats.
  cbn [both]. eauto.
Qed.

(** C8.  When neither key is in the storage, the load effect leaves the
    state at its defaults: no saved grammar point and all statistics 0;
    so does mounting as a whole. *)
Theorem C8_default_load (ls : gmap string jstring) :
  ls !! savedKey = None -> ls !! statsKey = None ->
  loadEffect ls initialState = Done initialState /\
  savedGrammar initialState = [] /\
  studyStats initialState =
    {| quizStats := {| correct := 0; total := 0; streak := 0; bestStreak := 0 |};
       studyTime := 0; grammarMastered := 0 |} /\
  exists w, mount ls = Done w /\ state w = initialState.
Proof.
  intros Hsaved Hstats. unfold loadEffect, mount, loadSaved, loadStats.
  rewrite Hsaved, Hstats. cbn [truthy].
  repeat split; try reflexivity. eexists. split; reflexivity.
Qed.

(** C9.  Whenever the progress display is rendered, the
    [grammarMastered] it receives is the number of saved grammar points;
    the [grammarMastered] field of the statistics plays no part: two states
    with the same saved points feed the display the same value. *)
Theorem C9_grammarMastered_prop (st : AppState) :
  currentScreen st = progress ->
  exists p, render st = Some (StudyProgress p) /\
    StudyProgress.grammarMastered p = Z.of_nat (length (savedGrammar st)) /\
    forall stats',
      exists p', render {| currentScreen := currentScreen st; selectedLevel := selectedLevel st;
                           savedGrammar := savedGrammar st; studyStats := stats' |}
                 = Some (StudyProgress p') /\
                 StudyProgress.grammarMastered p' = StudyProgress.grammarMastered p.
Proof.
  intros Hscreen. unfold render. rewrite Hscreen.
  eexists. split; [reflexivity|]. split; [reflexivity|].
  intros stats'. eexists. split; reflexivity.
Qed.

(** C10.  [handleQuizComplete] changes nothing but [quizStats]: the
    study time, the stored [grammarMastered] and the rest of the state
    stay; the interval callback changes nothing but [studyTime]. *)
Theorem C10_stats_frames (c t : Z) (st : AppState) :
  (studyTime (studyStats (handleQuizComplete c t st)) = studyTime (studyStats st) /\
   grammarMastered (studyStats (handleQuizComplete c t st)) = grammarMastered (studyStats st) /\
   savedGrammar (handleQuizComplete c t st) = savedGrammar st /\
   currentScreen (handleQuizComplete c t st) = currentScreen st /\
   selectedLevel (handleQuizComplete c t st) = selectedLevel st) /\
  (quizStats (studyStats (intervalCallback st)) = quizStats (studyStats st) /\
   grammarMastered (studyStats (intervalCallback st)) = grammarMastered (studyStats st) /\
   savedGrammar (intervalCallback st) = savedGrammar st /\
   currentScreen (intervalCallback st) = currentScreen st /\
   selectedLevel (intervalCallback st) = selectedLevel st) /\
  handleGameComplete c t st = handleQuizComplete c t st.
Proof. done. Qed.

End Claims.

(** * The properties at concrete inputs *)

Section Instances.
Import Example.

(** C2 as the specification states it fails: with the text [{] under
    [korean-grammar-saved], which is not JSON, and no statistics stored,
    the load effect does not leave the defaults in place, it throws. *)
Lemma C2_counterexample :
  let ls : gmap string jstring := {[ savedKey := js "{" ]} in
  (exists text, ls !! savedKey = Some text /\ parse text = Invalid) /\
  ls !! statsKey = None /\
  loadEffect ls initialState = Threw SyntaxError /\
  loadEffect ls initialState <> Done initialState /\
  mount ls = Threw SyntaxError.
Proof.
  intros ls.
  assert (loadEffect ls initialState = Threw SyntaxError) as Hthrow by by vm_compute.
  split; [exists (js "{"); split; by vm_compute|].
  split; [by vm_compute|]. split; [exact Hthrow|].
  split; [by rewrite Hthrow|by vm_compute].
Qed.

Lemma C2_witness :
  (loadEffect ∅ initialState = Done initialState) /\
  (loadEffect {[ savedKey := js "{" ]} initialState = Threw SyntaxError) /\
  (loadEffect {[ statsKey := js "not json" ]} initialState = Threw SyntaxError).
Proof.
  split; [|split].
  - destruct (C2_load_absent_or_malformed ∅ initialState) as (Habsent & _).
    apply Habsent; left; apply lookup_empty.
  - destruct (C2_load_absent_or_malformed {[ savedKey := js "{" ]} initialState)
      as (_ & Hbad).
    apply Hbad. left. exists (js "{"). split; [by vm_compute|]. split; by vm_compute.
  - destruct (C2_load_absent_or_malformed {[ statsKey := js "not json" ]} initialState)
      as (_ & Hbad).
    apply Hbad. right.
    exists (js "not json"). split; [by vm_compute|]. split; by vm_compute.
Defined.

Lemma C3_witness :
  (0 <= 3)%Z /\ (3 <= 3)%Z /\
  streak (quizStats (studyStats (handleQuizComplete 3 3
            (handleQuizComplete 5 5 initialState)))) = 8%Z /\
  bestStreak (quizStats (studyStats (handleQuizComplete 3 3
            (handleQuizComplete 5 5 initialState)))) = 5%Z.
Proof.
  split; [lia|]. split; [lia|].
  destruct (C3_handleQuizComplete_rule 3 3 (handleQuizComplete 5 5 initialState))
    as (_ & _ & Hstreak & _ & Hbest); [lia..|].
  split; [by rewrite Hstreak|by rewrite Hbest].
Defined.

Lemma C4_witness :
  mount ∅ = Done freshShell /\
  exists w,
    run [LevelSelect first_level; IntervalFires; IntervalFires] freshShell = Some w /\
    currentScreen (state w) = rooms /\ is_Some (fire IntervalFires w) /\
    (0 <= studyTime (studyStats (state w)))%Z.
Proof.
  assert (mount ∅ = Done freshShell) as Hmount by reflexivity.
  split; [exact Hmount|].
  eexists. split; [reflexivity|].
  destruct (C4_study_time_ticker ∅ freshShell _
              [LevelSelect first_level; IntervalFires; IntervalFires] Hmount eq_refl)
    as (Hgate & _ & _ & Hmono & _).
  split; [reflexivity|]. split; [by apply Hgate|exact Hmono].
Defined.

Lemma C5_witness :
  let st := handleSaveGrammar ieyo initialState in
  NoDup (ids (savedGrammar st)) /\
  savedGrammar (handleSaveGrammar ieyo st) = [ieyo] /\
  savedGrammar (handleSaveGrammar ayo st) = [ieyo; ayo] /\
  NoDup (ids (savedGrammar (foldl (fun s x => handleSaveGrammar x s) st [ayo; ieyo; ayo]))).
Proof.
  intros st.
  assert (NoDup (ids (savedGrammar st))) as Hdup
    by (apply (bool_decide_unpack _); by vm_compute).
  split; [done|]. split; [|split].
  - apply (C5_handleSaveGrammar_dedup ieyo st []).
    exists ieyo. split; [left|done].
  - apply (C5_handleSaveGrammar_dedup ayo st []).
    intros (x & Hx & Hid). apply list_elem_of_singleton in Hx. by subst x.
  - by apply (C5_handleSaveGrammar_dedup ayo st [ayo; ieyo; ayo]).
Defined.

Lemma C6_witness :
  exists w,
    Forall valid_round [ScreenChange games; GameComplete 3 5; GameComplete 4 4] /\
    run [ScreenChange games; GameComplete 3 5; GameComplete 4 4] freshShell = Some w /\
    (correct (quizStats (studyStats (state w))) <= total (quizStats (studyStats (state w))))%Z.
Proof.
  eexists.
  assert (Forall valid_round [ScreenChange games; GameComplete 3 5; GameComplete 4 4]) as Hv
    by (repeat constructor; cbn; lia).
  split; [exact Hv|]. split; [reflexivity|].
  by apply (C6_correct_le_total [ScreenChange games; GameComplete 3 5; GameComplete 4 4]).
Defined.

Lemma C7_witness :
  loadSaved (persistSaved [ieyo; ayo] ∅) = Done (Some [ieyo; ayo]).
Proof.
  exact (proj1 (proj2 (@C7_load_after_persist types point_JSONLaws [ieyo; ayo] ∅))).
Defined.

Lemma C8_witness :
  (∅ : gmap string jstring) !! savedKey = None /\
  (∅ : gmap string jstring) !! statsKey = None /\
  loadEffect ∅ initialState = Done initialState.
Proof.
  split; [apply lookup_empty|]. split; [apply lookup_empty|].
  apply (C8_default_load ∅); apply lookup_empty.
Defined.

Lemma C9_witness :
  let st := {| currentScreen := progress; selectedLevel := None;
               savedGrammar := [ieyo; ayo];
               studyStats := {| quizStats := quizStats defaultStats;
                                studyTime := 0; grammarMastered := 7 |} |} in
  currentScreen st = progress /\
  exists p, render st = Some (StudyProgress p) /\ StudyProgress.grammarMastered p = 2%Z.
Proof.
  intros st. split; [reflexivity|].
  destruct (C9_grammarMastered_prop st eq_refl) as (p & Hrender & Hp & _).
  exists p. split; [exact Hrender|exact Hp].
Defined.

(** Further runs of the shell. *)

(** A perfect round of five, then two right out of three: the streak is
    reset to 0 and the best streak is the 5 of the round before. *)
Example streak_reset :
  quizStats (quizUpdater 2 3 (quizUpdater 5 5 defaultStats)) =
  {| correct := 7; total := 8; streak := 0; bestStreak := 5 |}.
Proof. reflexivity. Qed.

(** Three ticks in the rooms, none possible at the entrance, two more
    back in the rooms: five seconds of study. *)
Example ticker_gating :
  (fun w => studyTime (studyStats (state w))) <$>
    run [LevelSelect first_level; IntervalFires; IntervalFires; IntervalFires;
         ScreenChange entrance; ScreenChange rooms; IntervalFires; IntervalFires]
        freshShell = Some 5%Z /\
  run [LevelSelect first_level; ScreenChange entrance; IntervalFires] freshShell = None.
Proof. split; reflexivity. Qed.

(** What a session leaves in the storage, and what the next mount reads. *)
Example storage_after_session :
  (fun w => localStorage w !! savedKey) <$>
    run [LevelSelect first_level; SaveGrammar ieyo; SaveGrammar ieyo] freshShell
  = Some (Some (lbracket :: lbrace :: quote (js "id") ++ colon :: quote (js "g1") ++ comma ::
                quote (js "korean") ++ colon :: quote [51060; 50640; 50836] ++ [rbrace; rbracket])).
Proof. by vm_compute. Qed.

End Instances.

(** * Further properties of the shell *)

Section MoreShellFacts.
Context `{GrammarTypes}.

(** ** Keys of the storage *)

Lemma persistSaved_lookup_other saved ls key :
  key <> savedKey -> persistSaved saved ls !! key = ls !! key.
Proof. intros Hs. unfold persistSaved. by rewrite lookup_insert_ne. Qed.

Lemma persistStats_lookup_other stats ls key :
  key <> statsKey -> persistStats stats ls !! key = ls !! key.
Proof. intros Hs. unfold persistStats. by rewrite lookup_insert_ne. Qed.

Lemma fire_lookup_other e w w' key :
  key <> savedKey -> key <> statsKey -> fire e w = Some w' ->
  localStorage w' !! key = localStorage w !! key.
Proof.
  intros Hs Ht Hfire.
  destruct e; cbn [fire] in Hfire.
  - by injection Hfire as <-.
  - by injection Hfire as <-.
  - injection Hfire as <-. cbn [localStorage].
    destruct (decide _); [done|]. by apply persistSaved_lookup_other.
  - injection Hfire as <-. by apply persistStats_lookup_other.
  - injection Hfire as <-. by apply persistStats_lookup_other.
  - destruct (interval w); [|done]. injection Hfire as <-.
    by apply persistStats_lookup_other.
Qed.

Lemma run_lookup_other es key : forall w w',
  key <> savedKey -> key <> statsKey -> run es w = Some w' ->
  localStorage w' !! key = localStorage w !! key.
Proof.
  induction es as [|e es IH]; intros w w' Hs Ht; cbn [run].
  - by intros [= <-].
  - destruct (fire e w) as [w1|] eqn:Hfire; [|done].
    intros Hrun. rewrite (IH _ _ Hs Ht Hrun). by eapply fire_lookup_other.
Qed.

Lemma mount_lookup_other ls w key :
  key <> savedKey -> key <> statsKey -> mount ls = Done w ->
  localStorage w !! key = ls !! key.
Proof.
  intros Hs Ht. unfold mount. destruct (both _ _) as [[saved stats]| |]; [|done..].
  intros [= <-]. cbn [localStorage]. unfold persistSaved, persistStats.
  destruct saved, stats; by rewrite ?lookup_insert_ne.
Qed.

(** Writing again what the storage holds leaves the storage as it is. *)
Lemma persist_again saved stats saved0 stats0 (ls : gmap string jstring) :
  ls !! savedKey = Some (stringify (to_json saved)) ->
  ls !! statsKey = Some (stringify (to_json stats)) ->
  persistStats stats (persistSaved saved (persistStats stats0 (persistSaved saved0 ls))) = ls.
Proof.
  intros Hsaved Hstats. unfold persistStats, persistSaved.
  apply map_eq. intros key. rewrite !lookup_insert.
  repeat case_decide; subst; done.
Qed.

(** ** When the load effect throws *)

Lemma loadSaved_Threw ls e : loadSaved ls = Threw e <-> malformed ls savedKey.
Proof.
  unfold loadSaved, malformed. split.
  - destruct (ls !! savedKey) as [[|c text]|] eqn:Hget; cbn [truthy]; [done| |done].
    destruct (parse (c :: text)) as [j| |] eqn:Hparse.
    + by destruct (of_json j).
    + done.
    + intros _. by exists (c :: text).
  - intros (text & Hget & Hne & Hparse). rewrite Hget.
    destruct text as [|c text]; [done|]. cbn [truthy]. rewrite Hparse. by destruct e.
Qed.

Lemma loadStats_Threw ls e : loadStats ls = Threw e <-> malformed ls statsKey.
Proof.
  unfold loadStats, malformed. split.
  - destruct (ls !! statsKey) as [[|c text]|] eqn:Hget; cbn [truthy]; [done| |done].
    destruct (parse (c :: text)) as [j| |] eqn:Hparse.
    + by destruct (of_json j).
    + done.
    + intros _. by exists (c :: text).
  - intros (text & Hget & Hne & Hparse). rewrite Hget.
    destruct text as [|c text]; [done|]. cbn [truthy]. rewrite Hparse. by destruct e.
Qed.

Lemma both_Threw_iff ls :
  (exists e, both (loadSaved ls) (loadStats ls) = Threw e) <->
  malformed ls savedKey \/ malformed ls statsKey.
Proof.
  split.
  - intros [e He].
    destruct (loadSaved ls) as [a|e1|] eqn:Hs.
    + destruct (loadStats ls) as [b|e2|] eqn:Ht; [done| |done].
      right. by apply (loadStats_Threw ls e2).
    + left. by apply (loadSaved_Threw ls e1).
    + destruct (loadStats ls) as [b|e2|] eqn:Ht; [done| |done].
      right. by apply (loadStats_Threw ls e2).
  - intros [Hbad|Hbad].
    + apply (loadSaved_Threw ls SyntaxError) in Hbad. rewrite Hbad. by exists SyntaxError.
    + apply (loadStats_Threw ls SyntaxError) in Hbad. rewrite Hbad.
      destruct (loadSaved ls) as [a|e1|]; cbn [both]; eauto.
Qed.

(** ** Counters along a run *)

Lemma fire_totals e w w' :
  fire e w = Some w' ->
  (correct (quizStats (studyStats (state w'))) =
     correct (quizStats (studyStats (state w))) + rounds_correct [e] /\
   total (quizStats (studyStats (state w'))) =
     total (quizStats (studyStats (state w))) + rounds_total [e] /\
   studyTime (studyStats (state w')) = studyTime (studyStats (state w)) + firings [e])%Z.
Proof.
  destruct e; cbn [fire]; try (intros [= <-]; cbn; lia).
  destruct (interval w); [|done]. intros [= <-]. cbn. lia.
Qed.

Lemma rounds_cons e es :
  (rounds_correct (e :: es) = rounds_correct [e] + rounds_correct es /\
   rounds_total (e :: es) = rounds_total [e] + rounds_total es /\
   firings (e :: es) = firings [e] + firings es)%Z.
Proof. destruct e; cbn; lia. Qed.

Lemma fire_bounds e w w' :
  valid_round e -> fire e w = Some w' ->
  stats_bounds (studyStats (state w)) -> stats_bounds (studyStats (state w')).
Proof.
  unfold stats_bounds.
  destruct e as [screen|level|grammar|c t|c t|]; cbn [fire valid_round]; intros Hv.
  - intros [= <-]. cbn. lia.
  - intros [= <-]. cbn. lia.
  - intros [= <-]. cbn. lia.
  - intros [= <-]. cbn. destruct (Z.eqb_spec c t); lia.
  - intros [= <-]. cbn. destruct (Z.eqb_spec c t); lia.
  - destruct (interval w); [|done]. intros [= <-]. cbn. lia.
Qed.

Lemma fire_bestStreak e w w' :
  fire e w = Some w' ->
  (bestStreak (quizStats (studyStats (state w))) <=
     bestStreak (quizStats (studyStats (state w'))))%Z /\
  match round_of e with
  | Some _ =>
      (streak (quizStats (studyStats (state w))) <=
         bestStreak (quizStats (studyStats (state w'))))%Z
  | None => quizStats (studyStats (state w')) = quizStats (studyStats (state w))
  end.
Proof.
  destruct e; cbn [fire round_of]; try (intros [= <-]; cbn; split; (lia || done)).
  destruct (interval w); [|done]. intros [= <-]. cbn. split; (lia || done).
Qed.

(** ** Saved grammar points *)

Lemma find_saved_app i saved saved' :
  find_saved i (saved ++ saved') =
  match find_saved i saved with
  | Some x => Some x
  | None => find_saved i saved'
  end.
Proof.
  unfold find_saved. induction saved as [|g saved IH]; [done|].
  cbn [Datatypes.app List.find]. by destruct (bool_decide (id g = i)).
Qed.

Lemma saveUpdater_idempotent grammar saved :
  saveUpdater grammar (saveUpdater grammar saved) = saveUpdater grammar saved.
Proof.
  apply saveUpdater_known.
  destruct (decide (id grammar ∈ ids saved)) as [Hin|Hin].
  - by rewrite saveUpdater_known.
  - rewrite saveUpdater_new by done. unfold ids. rewrite map_app.
    apply elem_of_app. right. cbn. left.
Qed.

(** ** Sessions *)

Lemma session_run es : forall w w', session es w = Some w' -> run es w = Some w'.
Proof.
  induction es as [|e es IH]; intros w w'; cbn [session run]; [done|].
  destruct (offered (state w) e); [|done].
  destruct (fire e w); [apply IH|done].
Qed.

Lemma render_is_Some st :
  is_Some (render st) <-> (currentScreen st = rooms -> is_Some (selectedLevel st)).
Proof.
  unfold render. destruct (currentScreen st); try (split; [done|eauto]).
  destruct (selectedLevel st) as [level|].
  - split; eauto.
  - split; [by intros [? ?]|]. intros Hno. by destruct (Hno eq_refl).
Qed.

Lemma offered_fire_level e w w' :
  offered (state w) e = true -> fire e w = Some w' ->
  (currentScreen (state w) = rooms -> is_Some (selectedLevel (state w))) ->
  (currentScreen (state w') = rooms -> is_Some (selectedLevel (state w'))).
Proof.
  intros Hoff Hfire Hinv.
  destruct e; cbn [fire] in Hfire;
    try (injection Hfire as <-; cbn [state currentScreen selectedLevel handleSaveGrammar
           handleQuizComplete handleGameComplete handleLevelSelect]; by eauto).
  - injection Hfire as <-. cbn [state currentScreen selectedLevel handleScreenChange].
    intros ->. exfalso. cbn [offered] in Hoff.
    destruct (render (state w)) as [[]|]; done.
  - destruct (interval w); [|done]. by injection Hfire as <-.
Qed.

Lemma mount_screen ls w :
  mount ls = Done w ->
  currentScreen (state w) = welcome /\ selectedLevel (state w) = None /\ interval w = None.
Proof.
  unfold mount. destruct (both _ _) as [[saved stats]| |]; [|done..].
  by intros [= <-].
Qed.

Lemma session_level es : forall w w',
  session es w = Some w' ->
  (currentScreen (state w) = rooms -> is_Some (selectedLevel (state w))) ->
  (currentScreen (state w') = rooms -> is_Some (selectedLevel (state w'))).
Proof.
  induction es as [|e es IH]; intros w w'; cbn [session].
  - by intros [= <-].
  - destruct (offered (state w) e) eqn:Hoff; [|done].
    destruct (fire e w) as [w1|] eqn:Hfire; [|done].
    intros Hs Hinv. eapply IH; [done|]. by eapply offered_fire_level.
Qed.

End MoreShellFacts.

Section MoreProperties.
Context `{GrammarTypes}.

(** X1.  From mounting on, after every event, the storage holds under
    [korean-grammar-saved] the JSON text of the saved grammar points of the
    state and under [korean-grammar-stats] the JSON text of its
    statistics. *)
Theorem X1_storage_mirrors_state (ls : gmap string jstring) (w0 w : Shell) (es : list event) :
  mount ls = Done w0 -> run es w0 = Some w ->
  localStorage w !! savedKey = Some (stringify (to_json (savedGrammar (state w)))) /\
  localStorage w !! statsKey = Some (stringify (to_json (studyStats (state w)))).
Proof.
  intros Hmount Hrun. eapply run_mirrored; [done|]. by eapply mount_mirrored.
Qed.

(** X2.  Mounting again over the storage that a session left behind
    gives the saved grammar points and the statistics of that session;
    the screen is [welcome] again, no level is selected, no interval is
    armed, and the storage is left exactly as it was. *)
Theorem X2_remount_restores `{!JSONLaws GrammarPoint}
    (ls : gmap string jstring) (w0 w : Shell) (es : list event) :
  mount ls = Done w0 -> run es w0 = Some w ->
  mount (localStorage w) =
    Done {| state := {| currentScreen := welcome; selectedLevel := None;
                        savedGrammar := savedGrammar (state w);
                        studyStats := studyStats (state w) |};
            interval := None;
            localStorage := localStorage w |}.
Proof.
  intros Hmount Hrun.
  destruct (run_mirrored es _ _ Hrun (mount_mirrored _ _ Hmount)) as [Hsaved Hstats].
  unfold mount. rewrite (loadSaved_stored _ _ Hsaved), (loadStats_stored _ _ Hstats).
  cbn [both]. f_equal. f_equal.
  exact (persist_again _ _ _ _ _ Hsaved Hstats).
Qed.

(** X3.  Whatever the statistics are, negative counters included, what
    the persistence effect writes under [korean-grammar-stats] is text
    that [JSON.parse] accepts and that the load effect reads back as the
    same statistics. *)
Theorem X3_stats_round_trip (stats : StudyStats) (ls : gmap string jstring) :
  persistStats stats ls !! statsKey = Some (stringify (to_json stats)) /\
  parse (stringify (to_json stats)) = Parsed (to_json stats) /\
  loadStats (persistStats stats ls) = Done (Some stats).
Proof.
  split; [apply lookup_insert_eq|].
  split; [apply parse_stringify, to_json_distinct|apply loadStats_persistStats].
Qed.

(** X4.  The load effect, and mounting with it, ends in an exception
    exactly when one of the two keys holds a non-empty text that is not
    JSON; text that is JSON never makes it throw, whatever its form. *)
Theorem X4_load_throws_iff_malformed (ls : gmap string jstring) (st : AppState) :
  ((exists e, loadEffect ls st = Threw e) <-> malformed ls savedKey \/ malformed ls statsKey) /\
  ((exists e, mount ls = Threw e) <-> malformed ls savedKey \/ malformed ls statsKey).
Proof.
  split; rewrite <- both_Threw_iff; unfold loadEffect, mount;
    destruct (both (loadSaved ls) (loadStats ls)) as [[saved stats]|e'|];
    split; intros [e He]; try done; eauto.
Qed.

(** X5.  The shell reads and writes its own two keys only: every other
    key of the storage holds after mounting and after every event what it
    held before; nothing is ever removed. *)
Theorem X5_other_keys_untouched
    (ls : gmap string jstring) (w0 w : Shell) (es : list event) (key : string) :
  key <> savedKey -> key <> statsKey ->
  mount ls = Done w0 -> run es w0 = Some w ->
  localStorage w !! key = ls !! key.
Proof.
  intros Hs Ht Hmount Hrun.
  rewrite (run_lookup_other es key _ _ Hs Ht Hrun).
  by apply mount_lookup_other.
Qed.

(** X6.  After any sequence of events, the running numbers of correct
    answers and of questions are those from before plus the sums over the
    rounds reported in between, in whatever order and on whatever screen
    they came. *)
Theorem X6_totals_are_sums (es : list event) (w w' : Shell) :
  run es w = Some w' ->
  (correct (quizStats (studyStats (state w'))) =
     correct (quizStats (studyStats (state w))) + rounds_correct es /\
   total (quizStats (studyStats (state w'))) =
     total (quizStats (studyStats (state w))) + rounds_total es)%Z.
Proof.
  revert w. induction es as [|e es IH]; intros w; cbn [run].
  - intros [= <-]. cbn. lia.
  - destruct (fire e w) as [w1|] eqn:Hfire; [|done]. intros Hrun.
    destruct (fire_totals _ _ _ Hfire) as (Hc & Ht & _).
    destruct (IH _ Hrun) as [Hc' Ht'].
    destruct (rounds_cons e es) as (Rc & Rt & _). lia.
Qed.

(** X7.  After any sequence of events, the study time is the one from
    before plus the number of times the interval fired; no other event
    changes it. *)
Theorem X7_study_time_counts_firings (es : list event) (w w' : Shell) :
  run es w = Some w' ->
  studyTime (studyStats (state w')) = (studyTime (studyStats (state w)) + firings es)%Z.
Proof.
  revert w. induction es as [|e es IH]; intros w; cbn [run].
  - intros [= <-]. cbn. lia.
  - destruct (fire e w) as [w1|] eqn:Hfire; [|done]. intros Hrun.
    destruct (fire_totals _ _ _ Hfire) as (_ & _ & Ht).
    pose proof (IH _ Hrun) as Ht'.
    destruct (rounds_cons e es) as (_ & _ & Rf). lia.
Qed.

(** X8.  When every reported round has [0 <= correct <= total], the
    counters stay in range along any run that starts in range: the streak
    and the best streak lie between 0 and the number of correct answers,
    which is at most the number of questions, and the study time is not
    negative. *)
Theorem X8_counters_stay_in_range (es : list event) (w w' : Shell) :
  Forall valid_round es -> stats_bounds (studyStats (state w)) ->
  run es w = Some w' -> stats_bounds (studyStats (state w')).
Proof.
  revert w. induction es as [|e es IH]; intros w Hv Hb; cbn [run].
  - by intros [= <-].
  - apply Forall_cons in Hv as [He Hes].
    destruct (fire e w) as [w1|] eqn:Hfire; [|done].
    apply IH; [done|]. by eapply fire_bounds.
Qed.

(** X9.  The best streak never goes down, and it is one round behind at
    most: once a further round has been reported, whatever its result,
    the best streak is at least the streak held before. *)
Theorem X9_bestStreak_catches_up (es : list event) (w w' : Shell) :
  run es w = Some w' ->
  (bestStreak (quizStats (studyStats (state w))) <=
     bestStreak (quizStats (studyStats (state w'))))%Z /\
  (Exists (fun e => is_Some (round_of e)) es ->
   (streak (quizStats (studyStats (state w))) <=
      bestStreak (quizStats (studyStats (state w'))))%Z).
Proof.
  revert w. induction es as [|e es IH]; intros w; cbn [run].
  - intros [= <-]. split; [lia|]. by intros ?%Exists_nil.
  - destruct (fire e w) as [w1|] eqn:Hfire; [|done]. intros Hrun.
    destruct (fire_bestStreak _ _ _ Hfire) as [Hb He].
    destruct (IH _ Hrun) as [Hb' Hs']. split; [lia|].
    intros Hex. destruct (round_of e) as [r|] eqn:Hr.
    + lia.
    + apply Exists_cons in Hex as [[r Hex]|Hex]; [congruence|].
      rewrite <- He. by apply Hs'.
Qed.

(** X10.  A sequence of perfect rounds of [cs] questions followed by one
    more of [c] questions adds all of them to the streak, to the correct
    answers and to the questions, and leaves as best streak the larger of
    the old best streak and the streak before the last round. *)
Theorem X10_perfect_rounds (cs : list Z) (c : Z) (stats : StudyStats) :
  Forall (fun x => 0 <= x)%Z cs ->
  let after := quizStats (perfect_rounds (cs ++ [c]) stats) in
  (streak after = streak (quizStats stats) + foldr Z.add 0 cs + c /\
   bestStreak after =
     Z.max (bestStreak (quizStats stats)) (streak (quizStats stats) + foldr Z.add 0 cs) /\
   correct after = correct (quizStats stats) + foldr Z.add 0 cs + c /\
   total after = total (quizStats stats) + foldr Z.add 0 cs + c)%Z.
Proof.
  revert stats. induction cs as [|c1 cs IH]; intros stats Hcs after.
  - subst after. unfold perfect_rounds. cbn. rewrite Z.eqb_refl. lia.
  - apply Forall_cons in Hcs as [Hc1 Hcs].
    assert (Forall (fun x => 0 <= x)%Z cs -> 0 <= foldr Z.add 0 cs)%Z as Hsum.
    { clear. induction 1; cbn; lia. }
    specialize (Hsum Hcs).
    specialize (IH (quizUpdater c1 c1 stats) Hcs). cbn zeta in IH.
    subst after.
    change (perfect_rounds ((c1 :: cs) ++ [c]) stats)
      with (perfect_rounds (cs ++ [c]) (quizUpdater c1 c1 stats)).
    destruct IH as (Hs & Hb & Hc & Ht).
    rewrite Hs, Hb, Hc, Ht. cbn. rewrite Z.eqb_refl. lia.
Qed.

(** X11.  Saving the same grammar point a second time changes nothing at
    all: not the state, not the interval, not the storage. *)
Theorem X11_save_again_changes_nothing (g : GrammarPoint) (w w1 : Shell) :
  fire (SaveGrammar g) w = Some w1 -> fire (SaveGrammar g) w1 = Some w1.
Proof.
  cbn [fire]. intros [= <-].
  assert (handleSaveGrammar g (handleSaveGrammar g (state w)) = handleSaveGrammar g (state w))
    as Hsame.
  { unfold handleSaveGrammar. cbn [currentScreen selectedLevel savedGrammar studyStats].
    by rewrite saveUpdater_idempotent. }
  cbn [state interval localStorage]. rewrite Hsame.
  by rewrite (decide_True (P := length _ = length _)).
Qed.

(** X12.  Looking a grammar point up by id after a save: under the id
    of the saved point one finds the point that was there before, if
    there was one (a second point with a known id does not replace the
    first), and the new point otherwise; under any other id one finds
    what one found before. *)
Theorem X12_find_after_save (g : GrammarPoint) (saved : list GrammarPoint) (i : Id) :
  find_saved i (saveUpdater g saved) =
  if decide (i = id g) then Some (default g (find_saved i saved)) else find_saved i saved.
Proof.
  unfold saveUpdater. change (List.find _ saved) with (find_saved (id g) saved).
  destruct (find_saved (id g) saved) as [x|] eqn:Hfind.
  - destruct (decide (i = id g)) as [->|]; [by rewrite Hfind|done].
  - rewrite find_saved_app. destruct (decide (i = id g)) as [->|Hne].
    + rewrite Hfind. unfold find_saved. cbn [List.find].
      by rewrite bool_decide_eq_true_2.
    + destruct (find_saved i saved); [done|]. unfold find_saved. cbn [List.find].
      by rewrite bool_decide_eq_false_2.
Qed.

(** X13.  In a session driven by the callbacks that the screens offer,
    the guard of the rooms screen never leaves the page blank: whenever
    the screen is [rooms] a level is selected, so some leaf is always
    rendered. *)
Theorem X13_rooms_never_blank (ls : gmap string jstring) (w0 w : Shell) (es : list event) :
  mount ls = Done w0 -> session es w0 = Some w ->
  is_Some (render (state w)) /\
  (currentScreen (state w) = rooms -> is_Some (selectedLevel (state w))).
Proof.
  intros Hmount Hsession.
  assert (currentScreen (state w) = rooms -> is_Some (selectedLevel (state w))) as Hinv.
  { eapply session_level; [done|].
    destruct (mount_screen _ _ Hmount) as (-> & _). done. }
  split; [by apply render_is_Some|done].
Qed.

(** X14.  In such a session each piece of state changes on one screen
    only: the saved grammar points while the rooms are shown, the quiz
    statistics while the games are shown, the study time while the
    screen is [rooms], and the selected level at the entrance. *)
Theorem X14_changes_by_screen
    (ls : gmap string jstring) (w0 w w' : Shell) (es : list event) (e : event) :
  mount ls = Done w0 -> session es w0 = Some w ->
  offered (state w) e = true -> fire e w = Some w' ->
  (savedGrammar (state w') <> savedGrammar (state w) -> currentScreen (state w) = rooms) /\
  (quizStats (studyStats (state w')) <> quizStats (studyStats (state w)) ->
     currentScreen (state w) = games) /\
  (studyTime (studyStats (state w')) <> studyTime (studyStats (state w)) ->
     currentScreen (state w) = rooms) /\
  (selectedLevel (state w') <> selectedLevel (state w) -> currentScreen (state w) = entrance).
Proof.
  intros Hmount Hsession Hoff Hfire.
  assert (interval_inv w) as Hinv.
  { eapply run_interval_inv; [by apply session_run|by eapply mount_interval_inv]. }
  destruct e as [screen|level|grammar|c t|c t|]; cbn [fire] in Hfire.
  - injection Hfire as <-. by repeat split.
  - injection Hfire as <-. repeat split; try done. intros _.
    cbn [offered] in Hoff. unfold render in Hoff.
    destruct (currentScreen (state w)); try done. by destruct (selectedLevel (state w)).
  - injection Hfire as <-. repeat split; try done. intros _.
    cbn [offered] in Hoff. unfold render in Hoff.
    by destruct (currentScreen (state w)).
  - done.
  - injection Hfire as <-. repeat split; try done. intros _.
    cbn [offered] in Hoff. unfold render in Hoff.
    destruct (currentScreen (state w)); try done. by destruct (selectedLevel (state w)).
  - unfold interval_inv, studyTimeEffect in Hinv.
    destruct (interval w) eqn:Harmed; [|done]. injection Hfire as <-.
    repeat split; try done. intros _. by destruct (decide (currentScreen (state w) = rooms)).
Qed.

(** X15.  No screen of such a session is a dead end: wherever the
    session stands, unless it is at the entrance already, the screen
    offers the way to the entrance and one event leads there. *)
Theorem X15_entrance_one_event_away
    (ls : gmap string jstring) (w0 w : Shell) (es : list event) :
  mount ls = Done w0 -> session es w0 = Some w ->
  currentScreen (state w) <> entrance ->
  exists w', session [ScreenChange entrance] w = Some w' /\
             currentScreen (state w') = entrance.
Proof.
  intros Hmount Hsession Hne.
  assert (currentScreen (state w) = rooms -> is_Some (selectedLevel (state w))) as Hinv.
  { eapply session_level; [done|].
    destruct (mount_screen _ _ Hmount) as (-> & _). done. }
  assert (offered (state w) (ScreenChange entrance) = true) as Hoff.
  { cbn [offered]. unfold render.
    destruct (currentScreen (state w)); try done.
    by destruct (Hinv eq_refl) as [level ->]. }
  cbn [session fire]. rewrite Hoff. eauto.
Qed.

(** X16.  From a freshly mounted shell every screen is at most two
    offered events away. *)
Theorem X16_every_screen_within_two_events
    (ls : gmap string jstring) (w0 : Shell) (level : GrammarLevel) (target : ScreenType) :
  mount ls = Done w0 ->
  exists es w, (length es <= 2)%nat /\ session es w0 = Some w /\
               currentScreen (state w) = target.
Proof.
  intros Hmount. destruct (mount_screen _ _ Hmount) as (Hscreen & _ & _).
  assert (offered (state w0) (ScreenChange entrance) = true) as Hoff
    by (cbn [offered]; unfold render; by rewrite Hscreen).
  destruct target.
  - exists [], w0. by repeat split; cbn [length]; try lia.
  - exists [ScreenChange entrance]. eexists. split; [cbn [length]; lia|].
    cbn [session fire]. rewrite Hoff. done.
  - exists [ScreenChange entrance; LevelSelect level]. eexists. split; [cbn [length]; lia|].
    cbn [session fire]. rewrite Hoff. done.
  - exists [ScreenChange entrance; ScreenChange notebook]. eexists.
    split; [cbn [length]; lia|]. cbn [session fire]. rewrite Hoff. done.
  - exists [ScreenChange entrance; ScreenChange progress]. eexists.
    split; [cbn [length]; lia|]. cbn [session fire]. rewrite Hoff. done.
  - exists [ScreenChange entrance; ScreenChange games]. eexists.
    split; [cbn [length]; lia|]. cbn [session fire]. rewrite Hoff. done.
Qed.

(** X17.  After any sequence of events the screen is the target of the
    last navigation and the level is the last one selected; saves,
    rounds and firings of the interval move neither, and a selected
    level is never cleared. *)
Theorem X17_navigation_after_run (es : list event) (w w' : Shell) :
  run es w = Some w' ->
  currentScreen (state w') = screen_after es (currentScreen (state w)) /\
  selectedLevel (state w') = level_after es (selectedLevel (state w)) /\
  (is_Some (selectedLevel (state w)) -> is_Some (selectedLevel (state w'))).
Proof.
  revert w. induction es as [|e es IH]; intros w; cbn [run].
  - by intros [= <-].
  - destruct (fire e w) as [w1|] eqn:Hfire; [|done]. intros Hrun.
    destruct (IH _ Hrun) as (Hs & Hl & Hk).
    assert (currentScreen (state w1) =
              match e with
              | ScreenChange target => target
              | LevelSelect _ => rooms
              | _ => currentScreen (state w)
              end /\
            selectedLevel (state w1) =
              match e with
              | LevelSelect level' => Some level'
              | _ => selectedLevel (state w)
              end) as [Hscreen Hlevel].
    { destruct e; cbn [fire] in Hfire; try (by injection Hfire as <-).
      destruct (interval w); [|done]. by injection Hfire as <-. }
    split; [|split].
    + by rewrite Hs, Hscreen.
    + by rewrite Hl, Hlevel.
    + intros Hsome. apply Hk. rewrite Hlevel. by destruct e.
Qed.

(** X18.  What is stored identifies what was saved: two lists of grammar
    points, or two records of statistics, that the persistence effects
    store as the same text are equal. *)
Theorem X18_persist_injective `{!JSONLaws GrammarPoint}
    (saved saved' : list GrammarPoint) (stats stats' : StudyStats)
    (ls : gmap string jstring) :
  (persistSaved saved ls = persistSaved saved' ls -> saved = saved') /\
  (persistStats stats ls = persistStats stats' ls -> stats = stats').
Proof.
  split; intros Heq.
  - pose proof (loadSaved_persistSaved saved ls) as H1.
    rewrite Heq, loadSaved_persistSaved in H1. by injection H1.
  - pose proof (loadStats_persistStats stats ls) as H1.
    rewrite Heq, loadStats_persistStats in H1. by injection H1.
Qed.

(** X19.  The two halves of the load effect do not depend on each
    other: a stored list of grammar points is loaded when no statistics
    are stored, and stored statistics are loaded when no grammar points
    are; mounting then writes the default of the missing half to the
    storage. *)
Theorem X19_one_half_stored `{!JSONLaws GrammarPoint}
    (saved : list GrammarPoint) (stats : StudyStats) (ls : gmap string jstring) :
  (ls !! savedKey = Some (stringify (to_json saved)) -> unset ls statsKey ->
   exists w, mount ls = Done w /\
     savedGrammar (state w) = saved /\ studyStats (state w) = defaultStats /\
     localStorage w !! statsKey = Some (stringify (to_json defaultStats))) /\
  (ls !! statsKey = Some (stringify (to_json stats)) -> unset ls savedKey ->
   exists w, mount ls = Done w /\
     savedGrammar (state w) = [] /\ studyStats (state w) = stats /\
     localStorage w !! savedKey = Some (stringify (to_json ([] : list GrammarPoint)))).
Proof.
  split; intros Hstored Hunset.
  - assert (loadStats ls = Done None) as Hstats.
    { unfold loadStats. by destruct Hunset as [Hx | Hx]; rewrite Hx. }
    unfold mount. rewrite (loadSaved_stored _ _ Hstored), Hstats. cbn [both].
    eexists. split; [reflexivity|]. split; [done|]. split; [done|].
    cbn [localStorage]. unfold persistSaved, persistStats.
    rewrite lookup_insert_ne by done. apply lookup_insert_eq.
  - assert (loadSaved ls = Done None) as Hsaved.
    { unfold loadSaved. by destruct Hunset as [Hx | Hx]; rewrite Hx. }
    unfold mount. rewrite (loadStats_stored _ _ Hstored), Hsaved. cbn [both].
    eexists. split; [reflexivity|]. split; [done|]. split; [done|].
    cbn [localStorage]. unfold persistSaved, persistStats.
    rewrite lookup_insert_ne by done. rewrite lookup_insert_ne by done.
    apply lookup_insert_eq.
Qed.

(** X20.  After any sequence of events, the ids of the saved grammar
    points are the ids saved before together with the ids of the points
    that the events asked to save: every point asked for is found by its
    id, and nothing else has come in or gone. *)
Theorem X20_saved_ids_after_run (es : list event) (w w' : Shell) (i : Id) :
  run es w = Some w' ->
  (i ∈ ids (savedGrammar (state w')) <->
   i ∈ ids (savedGrammar (state w)) \/ i ∈ ids (saves es)).
Proof.
  revert w. induction es as [|e es IH]; intros w; cbn [run].
  - intros [= <-]. cbn [saves ids List.map]. rewrite elem_of_nil. tauto.
  - destruct (fire e w) as [w1|] eqn:Hfire; [|done]. intros Hrun.
    rewrite (IH _ Hrun).
    assert (i ∈ ids (savedGrammar (state w1)) <->
            i ∈ ids (savedGrammar (state w)) \/
            match e with SaveGrammar g => i = id g | _ => False end) as ->.
    { destruct e as [screen|level|grammar|c t|c t|]; cbn [fire] in Hfire;
        try (injection Hfire as <-; cbn [state savedGrammar handleScreenChange
               handleLevelSelect handleQuizComplete handleGameComplete]; tauto).
      - injection Hfire as <-. cbn [state savedGrammar handleSaveGrammar].
        destruct (decide (id grammar ∈ ids (savedGrammar (state w)))) as [Hin|Hin].
        + rewrite saveUpdater_known by done. split; [tauto|]. by intros [?| ->].
        + rewrite saveUpdater_new by done. unfold ids. rewrite map_app, elem_of_app.
          cbn [List.map]. by rewrite list_elem_of_singleton.
      - destruct (interval w); [|done]. injection Hfire as <-.
        cbn [state savedGrammar intervalCallback]. tauto. }
    destruct e; cbn [saves ids List.map]; try tauto.
    rewrite elem_of_cons. fold (ids (saves es)). tauto.
Qed.

End MoreProperties.

(** ** The further properties at concrete inputs *)

Section MoreInstances.
Import Example.

Lemma X1_witness :
  exists w,
    run [LevelSelect first_level; SaveGrammar ieyo; IntervalFires] freshShell = Some w /\
    localStorage w !! savedKey = Some (stringify (to_json [ieyo])) /\
    studyTime (studyStats (state w)) = 1%Z.
Proof.
  assert (mount ∅ = Done freshShell) as Hmount by reflexivity.
  eexists. split; [reflexivity|].
  destruct (X1_storage_mirrors_state ∅ freshShell _
              [LevelSelect first_level; SaveGrammar ieyo; IntervalFires] Hmount eq_refl)
    as [Hsaved _].
  split; [exact Hsaved|reflexivity].
Defined.

Lemma X2_witness :
  exists w w',
    run [LevelSelect first_level; SaveGrammar ieyo; IntervalFires] freshShell = Some w /\
    mount (localStorage w) = Done w' /\
    savedGrammar (state w') = [ieyo] /\ currentScreen (state w') = welcome.
Proof.
  assert (mount ∅ = Done freshShell) as Hmount by reflexivity.
  eexists _, _. split; [reflexivity|].
  split; [exact (@X2_remount_restores types point_JSONLaws ∅ freshShell _
                   [LevelSelect first_level; SaveGrammar ieyo; IntervalFires]
                   Hmount eq_refl)|].
  split; reflexivity.
Defined.

Lemma X4_witness :
  exists e, mount (H := types) {[ statsKey := js "[1," ]} = Threw e.
Proof.
  apply (X4_load_throws_iff_malformed (H := types) {[ statsKey := js "[1," ]} initialState).
  right. exists (js "[1,"). split; [by vm_compute|]. split; by vm_compute.
Defined.

Lemma X5_witness :
  exists w0 w,
    mount {[ "theme" := js "dark" ]} = Done w0 /\
    run [LevelSelect first_level; SaveGrammar ieyo; IntervalFires] w0 = Some w /\
    localStorage w !! "theme" = Some (js "dark").
Proof.
  eexists _, _. split; [reflexivity|]. split; [reflexivity|].
  etrans.
  - eapply (X5_other_keys_untouched {[ "theme" := js "dark" ]} _ _
              [LevelSelect first_level; SaveGrammar ieyo; IntervalFires] "theme");
      [done|done|reflexivity|reflexivity].
  - by vm_compute.
Defined.

Lemma X6_witness :
  exists w,
    run [ScreenChange games; GameComplete 3 5; QuizComplete 4 4] freshShell = Some w /\
    correct (quizStats (studyStats (state w))) = 7%Z /\
    total (quizStats (studyStats (state w))) = 9%Z.
Proof.
  eexists. split; [reflexivity|].
  exact (X6_totals_are_sums [ScreenChange games; GameComplete 3 5; QuizComplete 4 4]
           freshShell _ eq_refl).
Defined.

Lemma X7_witness :
  exists w,
    run [LevelSelect first_level; IntervalFires; SaveGrammar ieyo; IntervalFires]
        freshShell = Some w /\
    studyTime (studyStats (state w)) = 2%Z.
Proof.
  eexists. split; [reflexivity|].
  exact (X7_study_time_counts_firings
           [LevelSelect first_level; IntervalFires; SaveGrammar ieyo; IntervalFires]
           freshShell _ eq_refl).
Defined.

Lemma X8_witness :
  exists w,
    run [ScreenChange games; GameComplete 5 5; GameComplete 2 3] freshShell = Some w /\
    stats_bounds (studyStats (state w)).
Proof.
  eexists. split; [reflexivity|].
  apply (X8_counters_stay_in_range
           [ScreenChange games; GameComplete 5 5; GameComplete 2 3] freshShell).
  - repeat constructor; cbn; lia.
  - unfold stats_bounds. cbn. lia.
  - reflexivity.
Defined.

Lemma X9_witness :
  exists w w',
    run [GameComplete 5 5] freshShell = Some w /\
    run [ScreenChange entrance; GameComplete 0 3] w = Some w' /\
    streak (quizStats (studyStats (state w))) = 5%Z /\
    (streak (quizStats (studyStats (state w))) <=
       bestStreak (quizStats (studyStats (state w'))))%Z.
Proof.
  eexists _, _. split; [reflexivity|]. split; [reflexivity|]. split; [reflexivity|].
  eapply (proj2 (X9_bestStreak_catches_up [ScreenChange entrance; GameComplete 0 3]
                   _ _ eq_refl)).
  apply Exists_cons_tl, Exists_cons_hd. by eexists.
Defined.

Lemma X10_witness :
  streak (quizStats (perfect_rounds ([5; 3] ++ [4])%Z defaultStats)) = 12%Z /\
  bestStreak (quizStats (perfect_rounds ([5; 3] ++ [4])%Z defaultStats)) = 8%Z.
Proof.
  destruct (X10_perfect_rounds [5; 3]%Z 4 defaultStats) as (Hs & Hb & _).
  - repeat constructor; lia.
  - split; [exact Hs|exact Hb].
Defined.

Lemma X11_witness :
  exists w1,
    fire (SaveGrammar ieyo) freshShell = Some w1 /\
    fire (SaveGrammar ieyo) w1 = Some w1.
Proof.
  eexists. split; [reflexivity|].
  by apply (X11_save_again_changes_nothing ieyo freshShell).
Defined.

Lemma X13_witness :
  exists w,
    session [ScreenChange entrance; LevelSelect first_level; ScreenChange notebook] freshShell
    = Some w /\
    is_Some (render (state w)).
Proof.
  assert (mount ∅ = Done freshShell) as Hmount by reflexivity.
  eexists. split; [reflexivity|].
  apply (X13_rooms_never_blank ∅ freshShell _
           [ScreenChange entrance; LevelSelect first_level; ScreenChange notebook]
           Hmount eq_refl).
Defined.

Lemma X14_witness :
  exists w w',
    session [ScreenChange entrance; LevelSelect first_level] freshShell = Some w /\
    fire (SaveGrammar ieyo) w = Some w' /\
    savedGrammar (state w') <> savedGrammar (state w) /\
    currentScreen (state w) = rooms.
Proof.
  assert (mount ∅ = Done freshShell) as Hmount by reflexivity.
  eexists _, _. split; [reflexivity|]. split; [reflexivity|].
  split; [by lazy|].
  apply (proj1 (X14_changes_by_screen ∅ freshShell _ _
                  [ScreenChange entrance; LevelSelect first_level] (SaveGrammar ieyo)
                  Hmount eq_refl eq_refl eq_refl)).
  by lazy.
Defined.

Lemma X15_witness :
  exists w,
    session [ScreenChange entrance; ScreenChange games; GameComplete 2 2] freshShell = Some w /\
    currentScreen (state w) = games /\
    exists w', session [ScreenChange entrance] w = Some w' /\
               currentScreen (state w') = entrance.
Proof.
  assert (mount ∅ = Done freshShell) as Hmount by reflexivity.
  eexists. split; [reflexivity|]. split; [reflexivity|].
  apply (X15_entrance_one_event_away ∅ freshShell _
           [ScreenChange entrance; ScreenChange games; GameComplete 2 2] Hmount eq_refl).
  by lazy.
Defined.

Lemma X16_witness :
  exists es w,
    (length es <= 2)%nat /\ session es freshShell = Some w /\
    currentScreen (state w) = rooms.
Proof.
  assert (mount ∅ = Done freshShell) as Hmount by reflexivity.
  exact (X16_every_screen_within_two_events ∅ freshShell first_level rooms Hmount).
Defined.

Lemma X17_witness :
  exists w,
    run [LevelSelect first_level; SaveGrammar ieyo; ScreenChange notebook; IntervalFires]
        freshShell = None /\
    run [LevelSelect first_level; SaveGrammar ieyo; ScreenChange notebook] freshShell = Some w /\
    currentScreen (state w) = notebook /\
    selectedLevel (state w) = Some first_level.
Proof.
  eexists. split; [reflexivity|]. split; [reflexivity|].
  destruct (X17_navigation_after_run
              [LevelSelect first_level; SaveGrammar ieyo; ScreenChange notebook]
              freshShell _ eq_refl) as (Hscreen & Hlevel & _).
  split; [exact Hscreen|exact Hlevel].
Defined.

Lemma X18_witness :
  persistSaved [ieyo; ayo] ∅ = persistSaved [ieyo; ayo] ∅ /\ [ieyo; ayo] = [ieyo; ayo].
Proof.
  split; [reflexivity|].
  by apply (@X18_persist_injective types point_JSONLaws [ieyo; ayo] [ieyo; ayo]
              defaultStats defaultStats ∅).
Defined.

Lemma X19_witness :
  exists w,
    mount (persistSaved [ieyo; ayo] ∅) = Done w /\
    savedGrammar (state w) = [ieyo; ayo] /\ studyStats (state w) = defaultStats.
Proof.
  destruct (@X19_one_half_stored types point_JSONLaws [ieyo; ayo] defaultStats
              (persistSaved [ieyo; ayo] ∅)) as [Hsaved _].
  destruct Hsaved as (w & Hmount & Hs & Ht & _).
  - apply lookup_insert_eq.
  - left. unfold persistSaved. rewrite lookup_insert_ne by done. apply lookup_empty.
  - exists w. by repeat split.
Defined.

Lemma X20_witness :
  exists w,
    run [LevelSelect first_level; SaveGrammar ayo; SaveGrammar ieyo; SaveGrammar ayo]
        freshShell = Some w /\
    point_id ieyo ∈ ids (savedGrammar (state w)).
Proof.
  eexists. split; [reflexivity|].
  apply (X20_saved_ids_after_run
           [LevelSelect first_level; SaveGrammar ayo; SaveGrammar ieyo; SaveGrammar ayo]
           freshShell _ (point_id ieyo) eq_refl).
  right. cbn [saves ids List.map]. right. left.
Defined.

(** Stored text whose numbers are written with a fraction or an exponent
    is JSON, and loading it does not throw: statistics whose study time
    is written [1e3] are loaded with a study time of 1000, and an array
    holding [1.5] is read into a state that this development does not
    follow. *)
Example load_number_forms :
  let stats_text :=
    js "{" ++ quote (js "quizStats") ++ js ":"
    ++ stringify (to_json {| correct := 7; total := 9; streak := 0; bestStreak := 4 |}%Z)
    ++ js "," ++ quote (js "studyTime") ++ js ":1e3,"
    ++ quote (js "grammarMastered") ++ js ":2.0}" in
  (exists w,
     mount (H := types) {[ statsKey := stats_text ]} = Done w /\
     studyTime (studyStats (state w)) = 1000%Z /\
     grammarMastered (studyStats (state w)) = 2%Z) /\
  ~ malformed {[ statsKey := stats_text ]} statsKey /\
  mount (H := types) {[ savedKey := js "[1.5]" ]} = IllTyped /\
  ~ malformed {[ savedKey := js "[1.5]" ]} savedKey.
Proof.
  intros stats_text. split; [|split; [|split]].
  - eexists. split; [by vm_compute|]. split; reflexivity.
  - intros (text & Hget & _ & Hparse).
    rewrite lookup_singleton_eq in Hget. injection Hget as <-. by vm_compute in Hparse.
  - by vm_compute.
  - intros (text & Hget & _ & Hparse).
    rewrite lookup_singleton_eq in Hget. injection Hget as <-. by vm_compute in Hparse.
Qed.

End MoreInstances.
